(** * pseq: greedy decoy matching (src/src/decoy_matcher.py)

    A shallow embedding of the matching engine of the repository:
    [FastaRecord] (src/src/fasta_record.py), [MatchRow]
    (src/src/match_row.py) and the class [DecoyMatcher]
    (src/src/decoy_matcher.py), followed by the properties of the search
    and of the orchestrating loop.

    Conventions of the embedding.
    - Python [int] is [Z]; positions in the decoy pool (the values produced
      by [enumerate]) are [nat].
    - Python [str] is [string]; a character is a code point below 256.
    - A Python exception is a value of [exn]; a function that can raise
      returns a [result].
    - The matcher object is a record; a method that writes to [self] is a
      function in the monad [M] that threads the object and keeps the
      writes made before an exception. *)

From Stdlib Require Import ZArith Lia Ascii String.
From stdpp Require Import base option list list_numbers gmap strings.

Local Open Scope Z_scope.

(** ** Exceptions and results *)

Inductive exn : Type :=
| IndexError
| ZeroDivisionError.

Inductive result (A : Type) : Type :=
| Ok (a : A)
| Raise (e : exn).

Arguments Ok {A} a.
Arguments Raise {A} e.

Definition rbind {A B : Type} (r : result A) (k : A → result B) : result B :=
  match r with
  | Ok a => k a
  | Raise e => Raise e
  end.

Declare Scope result_scope.
Delimit Scope result_scope with res.
Notation "'let?' x := r 'in' k" := (rbind r (fun x => k))
  (at level 10, x pattern, r at level 100, k at level 200,
   format "'[v' 'let?'  x  :=  r  'in' '/' k ']'") : result_scope.
Local Open Scope result_scope.

(** [for x in xs: s = body(x, s)] where the body may raise. *)
Fixpoint for_each {X S : Type} (body : X → S → result S) (xs : list X) (s : S)
  : result S :=
  match xs with
  | [] => Ok s
  | x :: xs' => let? s' := body x s in for_each body xs' s'
  end.

(** Python's [range(a, b)]. *)
Definition range (a b : Z) : list Z := seqZ a (b - a).

(** Python's [a // b] on integers: floor division, raising on a zero
    divisor. *)
Definition floordiv (a b : Z) : result Z :=
  if b =? 0 then Raise ZeroDivisionError else Ok (a `div` b).

(** Python's [x or 0] for an integer [x]. *)
Definition or0 (x : Z) : Z := if x =? 0 then 0 else x.

(** ** Strings *)

(** [sum(1 for c in s if p(c))]. *)
Fixpoint sum_ones (p : ascii → bool) (s : string) : Z :=
  match s with
  | EmptyString => 0
  | String c s' => (if p c then 1 else 0) + sum_ones p s'
  end.

Definition len (s : string) : Z := Z.of_nat (String.length s).

(** The characters [str.split()] treats as separators, among the code
    points below 256: TAB, LF, VT, FF, CR, FS, GS, RS, US, space, NEL and
    the no-break space. *)
Definition is_space (c : ascii) : bool :=
  let n := nat_of_ascii c in
  ((9 <=? n)%nat && (n <=? 13)%nat) || ((28 <=? n)%nat && (n <=? 32)%nat)
  || (n =? 133)%nat || (n =? 160)%nat.

(** [s.split()] with no argument: the maximal runs of non-separator
    characters, in order.  [cur] is the run being read, reversed. *)
Fixpoint split_go (cur : list ascii) (s : string) : list string :=
  match s with
  | EmptyString =>
      match cur with
      | [] => []
      | _ => [string_of_list_ascii (rev cur)]
      end
  | String c s' =>
      if is_space c then
        match cur with
        | [] => split_go [] s'
        | _ => string_of_list_ascii (rev cur) :: split_go [] s'
        end
      else split_go (c :: cur) s'
  end.

Definition split (s : string) : list string := split_go [] s.

(** [xs[0]] on a list. *)
Definition item0 {A : Type} (xs : list A) : result A :=
  match xs with
  | [] => Raise IndexError
  | x :: _ => Ok x
  end.

(** ** fasta_record.py *)

Record FastaRecord : Type := mkFastaRecord {
  header : string;
  seq : string
}.

(** The property [FastaRecord.name]: [self.header.split()[0]]. *)
Definition name (self : FastaRecord) : result string :=
  item0 (split (header self)).

(** ** match_row.py *)

Record MatchRow : Type := mkMatchRow {
  target_name : string;
  decoy_name : string;
  target_len : Z;
  decoy_len : Z;
  target_k : Z;
  target_r : Z;
  decoy_k : Z;
  decoy_r : Z;
  target_kr : Z;
  decoy_kr : Z;
  len_diff : Z;
  kr_diff : Z;
  score : Z
}.

(** ** decoy_matcher.py *)

Record DecoyMatcher : Type := mkDecoyMatcher {
  decoys : list FastaRecord;
  len_weight : Z;
  kr_weight : Z;
  max_len_window : Z;
  max_kr_window : Z;
  _by_len_kr : gmap (Z * Z) (list nat);
  _used : list bool
}.

Definition set_used (self : DecoyMatcher) (u : list bool) : DecoyMatcher :=
  {| decoys := decoys self;
     len_weight := len_weight self;
     kr_weight := kr_weight self;
     max_len_window := max_len_window self;
     max_kr_window := max_kr_window self;
     _by_len_kr := _by_len_kr self;
     _used := u |}.

Definition is_K (c : ascii) : bool := Ascii.eqb c "K".
Definition is_R (c : ascii) : bool := Ascii.eqb c "R".

Definition _kr_count (s : string) : Z := sum_ones (fun c => is_K c || is_R c) s.
Definition _k_count (s : string) : Z := sum_ones is_K s.
Definition _r_count (s : string) : Z := sum_ones is_R s.

(** The bucket key of a record: [(len(rec.seq), _kr_count(rec.seq))]. *)
Definition key_of (rec : FastaRecord) : Z * Z :=
  (len (seq rec), _kr_count (seq rec)).

(** [self._by_len_kr.setdefault(key, []).append(i)]. *)
Definition setdefault_append (key : Z * Z) (i : nat)
    (m : gmap (Z * Z) (list nat)) : gmap (Z * Z) (list nat) :=
  <[key := default [] (m !! key) ++ [i]]> m.

(** The loop of [__init__] over [enumerate(decoys)], started at position
    [i]. *)
Fixpoint index_from (i : nat) (recs : list FastaRecord)
    (m : gmap (Z * Z) (list nat)) : gmap (Z * Z) (list nat) :=
  match recs with
  | [] => m
  | rec :: recs' => index_from (S i) recs' (setdefault_append (key_of rec) i m)
  end.

(** The object [__init__] leaves behind: the fields as assigned, the
    bucket index filled by the loop, every flag [False]. *)
Definition new_matcher (decoys : list FastaRecord)
    (len_weight kr_weight max_len_window max_kr_window : Z) : DecoyMatcher :=
  {| decoys := decoys;
     len_weight := len_weight;
     kr_weight := kr_weight;
     max_len_window := max_len_window;
     max_kr_window := max_kr_window;
     _by_len_kr := index_from 0 decoys ∅;
     _used := replicate (length decoys) false |}.

(** [DecoyMatcher.__init__].  The arguments are already integers, on which
    [int(...)] is the identity; no statement of the constructor raises. *)
Definition __init__ (decoys : list FastaRecord)
    (len_weight kr_weight max_len_window max_kr_window : Z)
  : result DecoyMatcher :=
  Ok (new_matcher decoys len_weight kr_weight max_len_window max_kr_window).

(** [_iter_search_shell]: the keys yielded for the split [(dL, dKR)], in
    the order of the [yield]s. *)
Definition _iter_search_shell (L kr dL dKR : Z) : list (Z * Z) :=
  if (dL =? 0) && (dKR =? 0) then [(L, kr)]
  else
    let lens := if dL =? 0 then [L]
                else if 0 <? dL then [L - dL; L + dL] else [] in
    let krs := if dKR =? 0 then [kr]
               else if 0 <? dKR then [kr - dKR; kr + dKR] else [] in
    (LL ← lens; KK ← krs; [(LL, KK)])
    ++ (if (0 <? dL) && (0 <? dKR)
        then [(L - dL, kr); (L + dL, kr); (L, kr - dKR); (L, kr + dKR)]
        else []).

(** [_pop_first_unused] is called nowhere and is left out. *)

(** The scan [for j in reversed(idxs): if not self._used[j]: i = j; break],
    on the reversed list.  [self._used[j]] raises outside the list. *)
Fixpoint first_unused (used : list bool) (idxs_rev : list nat)
  : result (option nat) :=
  match idxs_rev with
  | [] => Ok None
  | j :: rest =>
      match used !! j with
      | None => Raise IndexError
      | Some false => Ok (Some j)
      | Some true => first_unused used rest
      end
  end.

(** The four locals [best_i], [best_score], [best_dL], [best_dKR] of
    [find_best_match]; they are [None] together and assigned together,
    hence one optional record. *)
Record Best : Type := mkBest {
  best_i : nat;
  best_score : Z;
  best_dL : Z;
  best_dKR : Z
}.

Section Search.

Variable self : DecoyMatcher.
Variables tL tkr : Z.

(** The score of a bucket key against the target. *)
Definition key_score (key : Z * Z) : Z :=
  len_weight self * Z.abs (key.1 - tL) + kr_weight self * Z.abs (key.2 - tkr).

(** Body of [for key in self._iter_search_shell(...)]. *)
Definition visit (key : Z * Z) (best : option Best) : result (option Best) :=
  match _by_len_kr self !! key with
  | None | Some [] => Ok best
  | Some idxs =>
      let? i := first_unused (_used self) (reverse idxs) in
      match i with
      | None => Ok best
      | Some i =>
          let score := key_score key in
          let found := {| best_i := i;
                          best_score := score;
                          best_dL := Z.abs (key.1 - tL);
                          best_dKR := Z.abs (key.2 - tkr) |} in
          match best with
          | None => Ok (Some found)
          | Some b => if score <? best_score b then Ok (Some found) else Ok best
          end
      end
  end.

(** Body of [for dL in range(dL_min, dL_max + 1)]. *)
Definition split_body (radius dL : Z) (best : option Best)
  : result (option Best) :=
  let dKR := radius - dL in
  if (dKR <? 0) || (max_kr_window self <? dKR) then Ok best
  else for_each visit (_iter_search_shell tL tkr dL dKR) best.

(** Body of [for radius in range(...)], up to the early-stop test. *)
Definition radius_body (radius : Z) (best : option Best)
  : result (option Best) :=
  let dL_min := Z.max 0 (radius - max_kr_window self) in
  let dL_max := Z.min (max_len_window self) radius in
  for_each (split_body radius) (range dL_min (dL_max + 1)) best.

(** The early-stop test
    [best_i is not None and radius > best_score // max(1, min(lw, kw))]. *)
Definition stop_test (radius : Z) (best : option Best) : result bool :=
  match best with
  | None => Ok false
  | Some b =>
      let? q := floordiv (best_score b)
                  (Z.max 1 (Z.min (len_weight self) (kr_weight self))) in
      Ok (q <? radius)
  end.

(** The loop over the radii, with its [break]. *)
Fixpoint radius_loop (radii : list Z) (best : option Best)
  : result (option Best) :=
  match radii with
  | [] => Ok best
  | radius :: rest =>
      let? best' := radius_body radius best in
      let? stop := stop_test radius best' in
      if stop then Ok best' else radius_loop rest best'
  end.

(** The same loop without the early stop: every radius is processed. *)
Definition radius_loop_full (radii : list Z) (best : option Best)
  : result (option Best) :=
  for_each radius_body radii best.

(** The radii of the search. *)
Definition radii : list Z :=
  range 0 (Z.max (max_len_window self) (max_kr_window self) + 1).

End Search.

(** ** Methods on the matcher object *)

Definition M (A : Type) : Type := DecoyMatcher → result A * DecoyMatcher.

Definition mret {A : Type} (a : A) : M A := fun self => (Ok a, self).

Definition mbind {A B : Type} (c : M A) (k : A → M B) : M B :=
  fun self =>
    match c self with
    | (Ok a, self') => k a self'
    | (Raise e, self') => (Raise e, self')
    end.

Definition lift {A : Type} (r : result A) : M A := fun self => (r, self).

Notation "'let!' x := c 'in' k" := (mbind c (fun x => k))
  (at level 10, x pattern, c at level 100, k at level 200,
   format "'[v' 'let!'  x  :=  c  'in' '/' k ']'") : result_scope.

(** [self._used[i] = True]. *)
Definition mark_used (i : nat) : M unit := fun self =>
  if decide (i < length (_used self))%nat
  then (Ok (), set_used self (<[i := true]> (_used self)))
  else (Raise IndexError, self).

(** [self.decoys[i]]. *)
Definition get_decoy (i : nat) : M FastaRecord := fun self =>
  (match decoys self !! i with
   | Some d => Ok d
   | None => Raise IndexError
   end, self).

Definition MatchResult : Type := nat * Z * Z * Z.

(** [DecoyMatcher.find_best_match]. *)
Definition find_best_match (target : FastaRecord) : M (option MatchResult) :=
  fun self =>
    let tL := len (seq target) in
    let tkr := _kr_count (seq target) in
    match radius_loop self tL tkr (radii self) None with
    | Raise e => (Raise e, self)
    | Ok None => (Ok None, self)
    | Ok (Some b) =>
        (let! _ := mark_used (best_i b) in
         mret (Some (best_i b, or0 (best_score b), or0 (best_dL b),
                     or0 (best_dKR b)))) self
    end.

(** [find_best_match] with the [break] of lines 115-116 removed: every
    radius is processed.  Not in the source; the early stop is compared
    with it. *)
Definition find_best_match_full (target : FastaRecord)
  : M (option MatchResult) :=
  fun self =>
    let tL := len (seq target) in
    let tkr := _kr_count (seq target) in
    match radius_loop_full self tL tkr (radii self) None with
    | Raise e => (Raise e, self)
    | Ok None => (Ok None, self)
    | Ok (Some b) =>
        (let! _ := mark_used (best_i b) in
         mret (Some (best_i b, or0 (best_score b), or0 (best_dL b),
                     or0 (best_dKR b)))) self
    end.

(** The [MatchRow] built by [match_all] for target [t], decoy [d] and the
    score returned by the search. *)
Definition make_row (t d : FastaRecord) (score : Z) : result MatchRow :=
  let tL := len (seq t) in
  let dL := len (seq d) in
  let tK := _k_count (seq t) in
  let tR := _r_count (seq t) in
  let dK := _k_count (seq d) in
  let dR := _r_count (seq d) in
  let tKR := tK + tR in
  let dKR := dK + dR in
  let? tn := name t in
  let? dn := name d in
  Ok {| target_name := tn;
        decoy_name := dn;
        target_len := tL;
        decoy_len := dL;
        target_k := tK;
        target_r := tR;
        decoy_k := dK;
        decoy_r := dR;
        target_kr := tKR;
        decoy_kr := dKR;
        len_diff := Z.abs (tL - dL);
        kr_diff := Z.abs (tKR - dKR);
        score := score |}.

(** The three lists [match_all] fills and returns. *)
Record Output : Type := mkOutput {
  pairs : list (FastaRecord * FastaRecord);
  rows : list MatchRow;
  unmatched : list FastaRecord
}.

(** The loop [for t in targets] of [match_all]. *)
Fixpoint match_all_loop (targets : list FastaRecord) (out : Output) : M Output :=
  match targets with
  | [] => mret out
  | t :: targets' =>
      let! res := find_best_match t in
      match res with
      | None =>
          match_all_loop targets'
            {| pairs := pairs out;
               rows := rows out;
               unmatched := unmatched out ++ [t] |}
      | Some (i, score, _, _) =>
          let! d := get_decoy i in
          let! row := lift (make_row t d score) in
          match_all_loop targets'
            {| pairs := pairs out ++ [(t, d)];
               rows := rows out ++ [row];
               unmatched := unmatched out |}
      end
  end.

(** [DecoyMatcher.match_all]. *)
Definition match_all (targets : list FastaRecord) : M Output :=
  match_all_loop targets {| pairs := []; rows := []; unmatched := [] |}.

(** ** decoy_matcher.py: the unused helper *)

(** The loop of [_pop_first_unused],
    [while idxs: i = idxs.pop(); if not self._used[i]: ...], on the
    reversed list.  The method changes the list it is given in place; the
    second component is what is left of that list when the method returns
    or raises. *)
Fixpoint pop_loop (idxs_rev : list nat) (self : DecoyMatcher)
  : result (option nat) * list nat * DecoyMatcher :=
  match idxs_rev with
  | [] => (Ok None, [], self)
  | i :: rest =>
      match _used self !! i with
      | None => (Raise IndexError, reverse rest, self)
      | Some false =>
          (Ok (Some i), reverse rest,
           set_used self (<[i := true]> (_used self)))
      | Some true => pop_loop rest self
      end
  end.

(** [DecoyMatcher._pop_first_unused].  No method of the class calls it. *)
Definition _pop_first_unused (idxs : list nat) (self : DecoyMatcher)
  : result (option nat) * list nat * DecoyMatcher :=
  pop_loop (reverse idxs) self.

(** ** More of Python's [str] *)

(** [s.lstrip()], [s.rstrip()] and [s.strip()] with no argument: the
    separators of [split] are removed at the ends. *)
Fixpoint lstrip (s : string) : string :=
  match s with
  | EmptyString => EmptyString
  | String c s' => if is_space c then lstrip s' else s
  end.

Fixpoint rstrip (s : string) : string :=
  match s with
  | EmptyString => EmptyString
  | String c s' =>
      match rstrip s' with
      | EmptyString => if is_space c then EmptyString else String c EmptyString
      | r => String c r
      end
  end.

Definition strip (s : string) : string := rstrip (lstrip s).

(** [s.startswith(">")] and [s[1:]]. *)
Definition startswith_gt (s : string) : bool :=
  match s with
  | String c _ => Ascii.eqb c ">"
  | EmptyString => false
  end.

Definition tail1 (s : string) : string :=
  match s with
  | String _ s' => s'
  | EmptyString => EmptyString
  end.

(** [s.replace(c, "")] for a one-character [c]. *)
Fixpoint remove_char (c : ascii) (s : string) : string :=
  match s with
  | EmptyString => EmptyString
  | String a s' =>
      if Ascii.eqb a c then remove_char c s' else String a (remove_char c s')
  end.

(** ["".join(chunks)]. *)
Fixpoint join (chunks : list string) : string :=
  match chunks with
  | [] => EmptyString
  | x :: xs => x +:+ join xs
  end.

(** The upper-case form of one character: a to z and the accented
    lower-case letters U+00E0 to U+00FE (but the division sign U+00F7)
    move down by 32, U+00DF becomes ["SS"], every other character is
    unchanged.  The upper-case forms of U+00B5 and U+00FF are U+039C and
    U+0178, code points [string] cannot hold: there the result is [None]. *)
Definition upper_char (c : ascii) : option string :=
  let n := nat_of_ascii c in
  if ((97 <=? n) && (n <=? 122))%nat
     || ((224 <=? n) && (n <=? 254) && negb (n =? 247))%nat
  then Some (String (ascii_of_nat (n - 32)) EmptyString)
  else if (n =? 223)%nat then Some "SS"
  else if ((n =? 181) || (n =? 255))%nat then None
  else Some (String c EmptyString).

(** [s.upper()], [None] when the result leaves the code points below
    256. *)
Fixpoint upper (s : string) : option string :=
  match s with
  | EmptyString => Some EmptyString
  | String c s' =>
      match upper_char c, upper s' with
      | Some u, Some r => Some (u +:+ r)
      | _, _ => None
      end
  end.

(** The lines a text file yields when iterated in text mode with the
    default [newline=None]: ["\n"], ["\r"] and ["\r\n"] each end a line
    and are read as ["\n"], which the line keeps; a last line without
    line end is yielded as it is. *)
Fixpoint file_lines (text : string) : list string :=
  match text with
  | EmptyString => []
  | String c text' =>
      if Ascii.eqb c "010" then String "010" EmptyString :: file_lines text'
      else if Ascii.eqb c "013" then
        String "010" EmptyString ::
        match text' with
        | String c' text'' =>
            if Ascii.eqb c' "010" then file_lines text'' else file_lines text'
        | EmptyString => []
        end
      else
        match file_lines text' with
        | [] => [String c EmptyString]
        | line :: lines => String c line :: lines
        end
  end.

(** ** fasta_record.py: the other methods *)

(** [FastaRecord.length]. *)
Definition FastaRecord_length (self : FastaRecord) : Z := len (seq self).

(** [FastaRecord.count_aa]: [aa = aa.upper()], then
    [sum(1 for c in self.seq if c == aa)].  A character of the sequence
    equals [aa] only when [aa] is that one character: where the upper-case
    form of the argument leaves the code points below 256, or has not
    exactly one character, nothing is counted. *)
Definition count_aa (self : FastaRecord) (aa : string) : Z :=
  match upper aa with
  | Some (String u EmptyString) => sum_ones (λ c, Ascii.eqb c u) (seq self)
  | _ => 0
  end.

(** ** main.py *)

(** [read_fasta], from the text of the file at [path]. *)

(** The record appended when a header line or the end of the file closes
    the record begun by the header line [hdr]. *)
Definition close_record (hdr : string) (chunks : list string)
  : option FastaRecord :=
  match upper (remove_char "009" (remove_char " " (join chunks))) with
  | Some s => Some {| header := strip (tail1 hdr); seq := s |}
  | None => None
  end.

(** The loop [for line in f] and the statement after it; [None] when a
    sequence leaves the code points below 256. *)
Fixpoint read_fasta_loop (lines : list string) (records : list FastaRecord)
    (hdr : option string) (chunks : list string)
  : option (list FastaRecord) :=
  match lines with
  | [] =>
      match hdr with
      | Some h =>
          match close_record h chunks with
          | Some r => Some (records ++ [r])
          | None => None
          end
      | None => Some records
      end
  | line :: lines' =>
      let line := strip line in
      match line with
      | EmptyString => read_fasta_loop lines' records hdr chunks
      | _ =>
          if startswith_gt line then
            match hdr with
            | Some h =>
                match close_record h chunks with
                | Some r => read_fasta_loop lines' (records ++ [r]) (Some line) []
                | None => None
                end
            | None => read_fasta_loop lines' records (Some line) []
            end
          else read_fasta_loop lines' records hdr (chunks ++ [line])
      end
  end.

Definition read_fasta (text : string) : option (list FastaRecord) :=
  read_fasta_loop (file_lines text) [] None [].

(** [write_fasta_pairs]: the text written to the file at [path]. *)
Definition pair_text (p : FastaRecord * FastaRecord) : string :=
  (">" +:+ header p.1 +:+ String "010" EmptyString)
  +:+ (seq p.1 +:+ String "010" EmptyString)
  +:+ (">" +:+ header p.2 +:+ String "010" EmptyString)
  +:+ (seq p.2 +:+ String "010" EmptyString).

Fixpoint write_fasta_pairs (pairs : list (FastaRecord * FastaRecord)) : string :=
  match pairs with
  | [] => EmptyString
  | p :: pairs' => pair_text p +:+ write_fasta_pairs pairs'
  end.

(** * Vocabulary of the properties

    The definitions below are not in the source: they name what the
    properties speak about. *)

(** ** Objects *)

(** A position is available when its flag is [False]. *)
Definition avail (self : DecoyMatcher) (j : nat) : Prop :=
  _used self !! j = Some false.

Global Instance avail_dec self j : Decision (avail self j).
Proof. unfold avail. apply _. Defined.

(** The object invariant: one flag per decoy, and the bucket of a key holds
    exactly the positions of the decoys with that key. *)
Record wf (self : DecoyMatcher) : Prop := mk_wf {
  wf_used_len : length (_used self) = length (decoys self);
  wf_bucket : ∀ key j,
    j ∈ default [] (_by_len_kr self !! key) ↔
    ∃ d, decoys self !! j = Some d ∧ key_of d = key
}.

(** ** The search without exceptions *)

Section Vocabulary.

Variable self : DecoyMatcher.
Variables tL tkr : Z.

(** The position the scan of a key's bucket selects: the most recently
    inserted one that is still available. *)
Definition cand (key : Z * Z) : option nat :=
  head (filter (avail self) (reverse (default [] (_by_len_kr self !! key)))).

(** The candidate record built from a key and the selected position. *)
Definition found (key : Z * Z) (i : nat) : Best :=
  {| best_i := i;
     best_score := key_score self tL tkr key;
     best_dL := Z.abs (key.1 - tL);
     best_dKR := Z.abs (key.2 - tkr) |}.

(** One key's effect on the running best. *)
Definition upd (best : option Best) (key : Z * Z) : option Best :=
  match cand key with
  | None => best
  | Some i =>
      match best with
      | None => Some (found key i)
      | Some b =>
          if key_score self tL tkr key <? best_score b
          then Some (found key i) else best
      end
  end.

(** The keys examined at one radius, in order. *)
Definition keys_at (radius : Z) : list (Z * Z) :=
  dL ← range (Z.max 0 (radius - max_kr_window self))
           (Z.min (max_len_window self) radius + 1);
  if (radius - dL <? 0) || (max_kr_window self <? radius - dL) then []
  else _iter_search_shell tL tkr dL (radius - dL).

(** The divisor of the early-stop test. *)
Definition divisor : Z := Z.max 1 (Z.min (len_weight self) (kr_weight self)).

(** The early-stop test as a boolean. *)
Definition stops (radius : Z) (best : option Best) : bool :=
  match best with
  | None => false
  | Some b => best_score b `div` divisor <? radius
  end.

(** The radius loop on well-formed objects, where nothing raises. *)
Fixpoint search_from (rs : list Z) (best : option Best) : option Best :=
  match rs with
  | [] => best
  | r :: rest =>
      let best' := foldl upd best (keys_at r) in
      if stops r best' then best' else search_from rest best'
  end.

(** The loop without the early stop. *)
Definition search_all (rs : list Z) (best : option Best) : option Best :=
  foldl (λ b r, foldl upd b (keys_at r)) best rs.

(** The distance of a key to the target, the radius at which the search
    first meets it. *)
Definition dist (k : Z * Z) : Z := Z.abs (k.1 - tL) + Z.abs (k.2 - tkr).

(** The key lies within both windows of the target. *)
Definition in_windows (k : Z * Z) : Prop :=
  Z.abs (k.1 - tL) ≤ max_len_window self ∧
  Z.abs (k.2 - tkr) ≤ max_kr_window self.

(** [best] is no worse than any candidate within the windows at distance
    at most [r]. *)
Definition minimal_upto (r : Z) (best : option Best) : Prop :=
  ∀ k i, in_windows k → dist k ≤ r → cand k = Some i →
         ∃ b, best = Some b ∧ best_score b ≤ key_score self tL tkr k.

End Vocabulary.

(** ** Searches and runs *)

(** The tuple [find_best_match] returns for a best candidate. *)
Definition result_of (b : Best) : MatchResult :=
  (best_i b, best_score b, best_dL b, best_dKR b).

(** The object after [self._used[i] = True]. *)
Definition commit (self : DecoyMatcher) (i : nat) : DecoyMatcher :=
  set_used self (<[i := true]> (_used self)).

(** [b] was built from a key examined by the search whose bucket scan
    selected position [best_i b]. *)
Definition chosen (self : DecoyMatcher) (tL tkr : Z) (b : Best) : Prop :=
  ∃ r k, r ∈ radii self ∧ k ∈ keys_at self tL tkr r ∧
         cand self k = Some (best_i b) ∧ b = found self tL tkr k (best_i b).

(** The objects a program can hold: built by the constructor, then changed
    only by searches. *)
Inductive reachable : DecoyMatcher → Prop :=
| reach_init ds lw kw mlw mkw self :
    __init__ ds lw kw mlw mkw = Ok self → reachable self
| reach_search t self r self' :
    reachable self → find_best_match t self = (r, self') → reachable self'.

(** The empty output, and the concatenation of two outputs. *)
Definition out_nil : Output := {| pairs := []; rows := []; unmatched := [] |}.

Definition out_app (a b : Output) : Output :=
  {| pairs := pairs a ++ pairs b;
     rows := rows a ++ rows b;
     unmatched := unmatched a ++ unmatched b |}.

(** The output of a run whose first target found no decoy. *)
Definition out_miss (t : FastaRecord) (o : Output) : Output :=
  {| pairs := pairs o; rows := rows o; unmatched := t :: unmatched o |}.

(** The output of a run whose first target was paired with [d]. *)
Definition out_hit (t d : FastaRecord) (row : MatchRow) (o : Output) : Output :=
  {| pairs := (t, d) :: pairs o; rows := row :: rows o;
     unmatched := unmatched o |}.

(** Post-processing of the result of a computation. *)
Definition on_ok {A B : Type} (f : A → B) (x : result A * DecoyMatcher)
  : result B * DecoyMatcher :=
  match x with
  | (Ok a, s) => (Ok (f a), s)
  | (Raise e, s) => (Raise e, s)
  end.

(** A completed run of [match_all], one search after the other. *)
Inductive Run : DecoyMatcher → list FastaRecord → Output → DecoyMatcher → Prop :=
| Run_nil self : Run self [] out_nil self
| Run_miss self t ts o self' :
    find_best_match t self = (Ok None, self) →
    Run self ts o self' →
    Run self (t :: ts) (out_miss t o) self'
| Run_hit self t ts b d row o self' :
    chosen self (len (seq t)) (_kr_count (seq t)) b →
    find_best_match t self = (Ok (Some (result_of b)), commit self (best_i b)) →
    decoys self !! best_i b = Some d →
    make_row t d (best_score b) = Ok row →
    Run (commit self (best_i b)) ts o self' →
    Run self (t :: ts) (out_hit t d row o) self'.

(** ** Example inputs *)

Definition rec_of (h s : string) : FastaRecord := {| header := h; seq := s |}.

(** A pool with one decoy one residue longer than the target ["A"] and
    holding one more K. *)
Definition pool_far : list FastaRecord := [rec_of "d1" "AK"].

(** A pool with two decoys under the key of ["AKR"], and a third one. *)
Definition pool_near : list FastaRecord :=
  [rec_of "d1 first" "KRA"; rec_of "d2" "ARK"; rec_of "d3" "AAAAKR"].

(** A sequence of [n] residues, the first [kr] of them K. *)
Fixpoint residues (n kr : nat) : string :=
  match n with
  | O => EmptyString
  | S n' => String (match kr with O => "A" | S _ => "K" end)%char
                   (residues n' (pred kr))
  end.

(** ** Outputs *)

(** The row agrees with the pair it was built from, and its score is the
    weighted sum of its two differences. *)
Definition row_scored (lw kw : Z) (p : FastaRecord * FastaRecord)
    (row : MatchRow) : Prop :=
  target_len row = len (seq p.1) ∧ decoy_len row = len (seq p.2) ∧
  target_kr row = _kr_count (seq p.1) ∧ decoy_kr row = _kr_count (seq p.2) ∧
  len_diff row = Z.abs (target_len row - decoy_len row) ∧
  kr_diff row = Z.abs (target_kr row - decoy_kr row) ∧
  score row = lw * len_diff row + kw * kr_diff row.

(** [Split l l1 l2]: [l] is an interleaving of [l1] and [l2]; every
    position of [l] goes to exactly one of the two, which keep the order
    of [l]. *)
Inductive Split {A : Type} : list A → list A → list A → Prop :=
| Split_nil : Split [] [] []
| Split_left x l l1 l2 : Split l l1 l2 → Split (x :: l) (x :: l1) l2
| Split_right x l l1 l2 : Split l l1 l2 → Split (x :: l) l1 (x :: l2).

(** The positions the successive searches of a run over [ts] return, in
    order: the positions [match_all] reads its decoys from. *)
Fixpoint committed (ts : list FastaRecord) (self : DecoyMatcher) : list nat :=
  match ts with
  | [] => []
  | t :: ts' =>
      match find_best_match t self with
      | (Ok (Some (i, _, _, _)), s) => i :: committed ts' s
      | (Ok None, s) => committed ts' s
      | (Raise _, _) => []
      end
  end.

(** The decoy lies within both windows of the target. *)
Definition within_windows (self : DecoyMatcher) (t d : FastaRecord) : Prop :=
  Z.abs (len (seq d) - len (seq t)) ≤ max_len_window self ∧
  Z.abs (_kr_count (seq d) - _kr_count (seq t)) ≤ max_kr_window self.

(** The decoy lies within both windows and within the largest radius the
    search visits. *)
Definition within_reach (self : DecoyMatcher) (t d : FastaRecord) : Prop :=
  within_windows self t d ∧
  Z.abs (len (seq d) - len (seq t))
  + Z.abs (_kr_count (seq d) - _kr_count (seq t))
  ≤ Z.max (max_len_window self) (max_kr_window self).

(** The string holds no character other than separators. *)
Fixpoint blank (s : string) : bool :=
  match s with
  | EmptyString => true
  | String c s' => is_space c && blank s'
  end.

(** ** Vocabulary of the further properties *)

(** [self'] differs from [self] at most in flags that went from [False]
    to [True]. *)
Definition flags_only (self self' : DecoyMatcher) : Prop :=
  decoys self' = decoys self ∧
  len_weight self' = len_weight self ∧ kr_weight self' = kr_weight self ∧
  max_len_window self' = max_len_window self ∧
  max_kr_window self' = max_kr_window self ∧
  _by_len_kr self' = _by_len_kr self ∧
  length (_used self') = length (_used self) ∧
  ∀ j, _used self !! j = Some true → _used self' !! j = Some true.

(** The number of decoys still available. *)
Definition n_available (self : DecoyMatcher) : nat :=
  length (filter (λ b, b = false) (_used self)).

(** The list holds its positions in strictly increasing order. *)
Definition increasing (l : list nat) : Prop :=
  ∀ a b x y, l !! a = Some x → l !! b = Some y → (a < b)%nat → (x < y)%nat.

(** The string holds no separator. *)
Fixpoint solid (s : string) : bool :=
  match s with
  | EmptyString => true
  | String c s' => negb (is_space c) && solid s'
  end.

(** The string is empty or starts with a separator. *)
Definition at_token_end (s : string) : Prop :=
  match s with
  | EmptyString => True
  | String c _ => is_space c = true
  end.

(** The string holds no line end. *)
Fixpoint no_line_end (s : string) : bool :=
  match s with
  | EmptyString => true
  | String c s' =>
      negb (Ascii.eqb c "010") && negb (Ascii.eqb c "013") && no_line_end s'
  end.

(** A record that [write_fasta_pairs] writes on two lines of its own and
    [read_fasta] reads unchanged: no separator at the ends of the header
    or of the sequence, no line end inside them, and a sequence without
    space or tab, in upper case, that does not start with [>]. *)
Definition clean (r : FastaRecord) : Prop :=
  strip (header r) = header r ∧ no_line_end (header r) = true ∧
  strip (seq r) = seq r ∧ no_line_end (seq r) = true ∧
  remove_char " " (seq r) = seq r ∧ remove_char "009" (seq r) = seq r ∧
  startswith_gt (seq r) = false ∧ upper (seq r) = Some (seq r).

(** The records of a list of pairs, target before decoy. *)
Definition interleave (pairs : list (FastaRecord * FastaRecord))
  : list FastaRecord :=
  p ← pairs; [p.1; p.2].

(** The two lines [write_fasta_pairs] writes for a record. *)
Definition record_text (r : FastaRecord) : string :=
  (">" +:+ header r +:+ String "010" EmptyString)
  +:+ (seq r +:+ String "010" EmptyString).

(** The one chunk a non-empty sequence line leaves. *)
Definition chunks_of (r : FastaRecord) : list string :=
  match seq r with
  | EmptyString => []
  | s => [s]
  end.

(** Every character of the string passes the test. *)
Fixpoint allc (p : ascii → bool) (s : string) : bool :=
  match s with
  | EmptyString => true
  | String c s' => p c && allc p s'
  end.

(** The string does not end with a separator. *)
Fixpoint last_ok (s : string) : bool :=
  match s with
  | EmptyString => true
  | String c EmptyString => negb (is_space c)
  | String _ s' => last_ok s'
  end.

(** Neither a line end nor a space nor a tab: what survives in a
    sequence read by [read_fasta]. *)
Definition plain (c : ascii) : bool :=
  negb (Ascii.eqb c "010") && negb (Ascii.eqb c "013")
  && negb (Ascii.eqb c " ") && negb (Ascii.eqb c "009").

(** A chunk [read_fasta] collects: a stripped, non-empty line that is no
    header line. *)
Definition chunk_ok (c : string) : Prop :=
  c ≠ EmptyString ∧ strip c = c ∧ no_line_end c = true ∧
  startswith_gt c = false.

(** A line as the file yields it: free of line ends but for the one that
    may end it. *)
Definition line_shape (l : string) : Prop :=
  ∃ c, no_line_end c = true ∧ (l = c ∨ l = c +:+ String "010" EmptyString).

(** The facts about the upper-case form of one character that the reader
    relies on, as one test: the form is not empty, stays plain for a plain
    character, holds no separator for a character that is none, does not
    start with [>] unless the character is [>], and is its own upper-case
    form. *)
Definition upper_char_ok (c : ascii) : bool :=
  match upper_char c with
  | None => true
  | Some w =>
      negb (String.eqb w EmptyString)
      && implb (plain c) (allc plain w)
      && implb (negb (is_space c)) (solid w)
      && implb (negb (Ascii.eqb c ">")) (negb (startswith_gt w))
      && match upper w with
         | Some w' => String.eqb w' w
         | None => false
         end
  end.

(** * Properties *)

(** ** Elementary facts *)

Lemma or0_id (x : Z) : or0 x = x.
Proof. unfold or0. destruct (Z.eqb_spec x 0); congruence. Qed.

Lemma sum_ones_nonneg (p : ascii → bool) (s : string) : 0 ≤ sum_ones p s.
Proof. induction s as [|c s IH]; simpl; [lia|]. destruct (p c); lia. Qed.

Lemma is_K_not_R (c : ascii) : is_K c = true → is_R c = false.
Proof.
  unfold is_K, is_R. intros HK. apply Ascii.eqb_eq in HK. by subst c.
Qed.

(** The K+R count used for the bucket key is the sum of the two counts
    [match_all] reports separately. *)
Lemma kr_count_sum (s : string) : _kr_count s = _k_count s + _r_count s.
Proof.
  unfold _kr_count, _k_count, _r_count.
  induction s as [|c s IH]; simpl; [done|]. rewrite IH.
  destruct (is_K c) eqn:HK; simpl.
  - rewrite (is_K_not_R c HK). lia.
  - destruct (is_R c); lia.
Qed.

Lemma len_nonneg (s : string) : 0 ≤ len s.
Proof. unfold len. lia. Qed.

Lemma elem_of_range (a b k : Z) : k ∈ range a b ↔ a ≤ k < b.
Proof. unfold range. rewrite elem_of_seqZ. lia. Qed.

Lemma range_cons (a b : Z) : a < b → range a b = a :: range (a + 1) b.
Proof.
  intros H. unfold range. rewrite seqZ_cons by lia.
  f_equal. f_equal; lia.
Qed.

Lemma range_nil (a b : Z) : b ≤ a → range a b = [].
Proof. intros H. unfold range. apply seqZ_nil. lia. Qed.

(** A loop whose body never raises is a left fold. *)
Lemma for_each_pure {X S : Type} (body : X → S → result S) (f : S → X → S)
    (xs : list X) (s : S) :
  (∀ x s', x ∈ xs → body x s' = Ok (f s' x)) →
  for_each body xs s = Ok (foldl f s xs).
Proof.
  revert s. induction xs as [|x xs IH]; intros s Hb; simpl; [done|].
  rewrite Hb by left. simpl. apply IH. intros y s' Hy. apply Hb. by right.
Qed.

(** ** Well-formed matcher objects *)

Lemma index_from_spec (recs : list FastaRecord) (i : nat)
    (m : gmap (Z * Z) (list nat)) (key : Z * Z) (j : nat) :
  j ∈ default [] (index_from i recs m !! key) ↔
  j ∈ default [] (m !! key) ∨
  ∃ d, (i ≤ j)%nat ∧ recs !! (j - i)%nat = Some d ∧ key_of d = key.
Proof.
  revert i m. induction recs as [|rec recs IH]; intros i m; simpl.
  - split; [by left|]. intros [H|(d & _ & H & _)]; [done|]. by rewrite lookup_nil in H.
  - rewrite IH. unfold setdefault_append. split.
    + intros [H|(d & Hle & Hd & Hk)].
      * destruct (decide (key_of rec = key)) as [Heq|Hne].
        -- subst key. rewrite lookup_insert_eq in H. simpl in H.
           apply elem_of_app in H as [H|H]; [by left|].
           apply list_elem_of_singleton in H as ->. right. exists rec.
           by rewrite Nat.sub_diag.
        -- rewrite lookup_insert_ne in H by done. by left.
      * right. exists d. split; [lia|]. split; [|done].
        replace (j - i)%nat with (S (j - S i)) by lia. done.
    + intros [H|(d & Hle & Hd & Hk)].
      * left. destruct (decide (key_of rec = key)) as [Heq|Hne].
        -- subst key. rewrite lookup_insert_eq. simpl. apply elem_of_app. by left.
        -- by rewrite lookup_insert_ne.
      * destruct (decide (j = i)) as [->|Hne].
        -- rewrite Nat.sub_diag in Hd. simpl in Hd. injection Hd as Hd.
           subst d key. left. rewrite lookup_insert_eq. simpl.
           apply elem_of_app. right. by apply list_elem_of_singleton.
        -- right. exists d. split; [lia|]. split; [|done].
           replace (j - i)%nat with (S (j - S i)) in Hd by lia. done.
Qed.

Lemma init_wf (ds : list FastaRecord) (lw kw mlw mkw : Z) (m : DecoyMatcher) :
  __init__ ds lw kw mlw mkw = Ok m → wf m.
Proof.
  intros [= <-]. split; simpl.
  - by rewrite length_replicate.
  - intros key j. rewrite index_from_spec, lookup_empty. simpl.
    rewrite Nat.sub_0_r. split.
    + intros [H|(d & _ & Hd & Hk)]; [by apply elem_of_nil in H|]. eauto.
    + intros (d & Hd & Hk). right. exists d. split; [lia|done].
Qed.

Lemma set_used_wf (self : DecoyMatcher) (i : nat) :
  wf self → wf (set_used self (<[i := true]> (_used self))).
Proof.
  intros [Hlen Hb]. split; simpl; [by rewrite length_insert|done].
Qed.

(** ** The search as a fold over bucket keys *)

Lemma first_unused_pure (used : list bool) (l : list nat) :
  Forall (λ j, (j < length used)%nat) l →
  first_unused used l = Ok (head (filter (λ j, used !! j = Some false) l)).
Proof.
  induction 1 as [|j l Hj _ IH]; simpl; [done|].
  destruct (used !! j) as [[]|] eqn:Hu.
  - rewrite filter_cons_False by congruence. exact IH.
  - by rewrite filter_cons_True.
  - apply lookup_ge_None in Hu. lia.
Qed.

Section SearchFacts.

Variable self : DecoyMatcher.
Variables tL tkr : Z.

Local Abbreviation cand := (cand self).
Local Abbreviation found := (found self tL tkr).
Local Abbreviation upd := (upd self tL tkr).
Local Abbreviation keys_at := (keys_at self tL tkr).

Hypothesis Hwf : wf self.

Lemma cand_Some (key : Z * Z) (i : nat) :
  cand key = Some i →
  avail self i ∧ ∃ d, decoys self !! i = Some d ∧ key_of d = key.
Proof.
  unfold cand. intros H. apply head_Some_elem_of in H.
  apply list_elem_of_filter in H as [Ha Hi].
  rewrite elem_of_reverse in Hi. split; [done|].
  by apply (wf_bucket _ Hwf).
Qed.

Lemma cand_is_Some (j : nat) (d : FastaRecord) :
  decoys self !! j = Some d → avail self j →
  is_Some (cand (key_of d)).
Proof.
  intros Hd Ha. unfold cand. apply head_is_Some.
  intros Hnil.
  assert (j ∈ filter (avail self)
                (reverse (default [] (_by_len_kr self !! key_of d)))) as Hin.
  { apply list_elem_of_filter. split; [done|]. rewrite elem_of_reverse.
    apply (wf_bucket _ Hwf). eauto. }
  rewrite Hnil in Hin. by apply elem_of_nil in Hin.
Qed.

Lemma visit_pure (key : Z * Z) (best : option Best) :
  visit self tL tkr key best = Ok (upd best key).
Proof.
  unfold visit, upd, cand.
  destruct (_by_len_kr self !! key) as [idxs|] eqn:Hk; simpl; [|done].
  assert (first_unused (_used self) (reverse idxs)
          = Ok (head (filter (avail self) (reverse idxs)))) as Hscan.
  { apply first_unused_pure. apply Forall_forall. intros j Hj.
    rewrite elem_of_reverse in Hj.
    assert (j ∈ default [] (_by_len_kr self !! key)) as Hj'
      by (by rewrite Hk).
    apply (wf_bucket _ Hwf) in Hj' as (d & Hd & _).
    apply lookup_lt_Some in Hd. rewrite (wf_used_len _ Hwf). done. }
  destruct idxs as [|j0 idxs']; [done|].
  rewrite Hscan. simpl.
  destruct (head _) as [i|]; [|done].
  destruct best as [b|]; [|done]. by destruct (_ <? _).
Qed.

Lemma split_body_pure (radius dL : Z) (best : option Best) :
  split_body self tL tkr radius dL best
  = Ok (foldl upd best
          (if (radius - dL <? 0) || (max_kr_window self <? radius - dL)
           then [] else _iter_search_shell tL tkr dL (radius - dL))).
Proof.
  unfold split_body. destruct (_ || _); [done|].
  apply for_each_pure. intros. apply visit_pure.
Qed.

Lemma radius_body_pure (radius : Z) (best : option Best) :
  radius_body self tL tkr radius best = Ok (foldl upd best (keys_at radius)).
Proof.
  unfold radius_body, keys_at.
  generalize (range (Z.max 0 (radius - max_kr_window self))
                (Z.min (max_len_window self) radius + 1)).
  intros l. revert best. induction l as [|dL l IH]; intros best; simpl; [done|].
  rewrite split_body_pure. simpl. rewrite foldl_app. apply IH.
Qed.

End SearchFacts.

(** ** The running best over a list of keys *)

Section BestFacts.

Variable self : DecoyMatcher.
Variables tL tkr : Z.

Local Abbreviation upd := (upd self tL tkr).
Local Abbreviation found := (found self tL tkr).
Local Abbreviation key_score := (key_score self tL tkr).

Lemma upd_cases (best : option Best) (k : Z * Z) :
  upd best k = best ∨ ∃ i, cand self k = Some i ∧ upd best k = Some (found k i).
Proof.
  unfold upd. destruct (cand self k) as [i|]; [|by left].
  destruct best as [b|]; [|right; eauto].
  destruct (_ <? _); [right; eauto|by left].
Qed.

Lemma upd_Some_le (b : Best) (k : Z * Z) :
  ∃ b', upd (Some b) k = Some b' ∧ best_score b' ≤ best_score b.
Proof.
  unfold upd. destruct (cand self k) as [i|]; [|exists b; split; [done|lia]].
  destruct (Z.ltb_spec (key_score k) (best_score b)).
  - eexists. split; [done|]. simpl. lia.
  - exists b. split; [done|lia].
Qed.

Lemma upd_hit (best : option Best) (k : Z * Z) (i : nat) :
  cand self k = Some i →
  ∃ b', upd best k = Some b' ∧ best_score b' ≤ key_score k.
Proof.
  unfold upd. intros ->. destruct best as [b|].
  - destruct (Z.ltb_spec (key_score k) (best_score b)).
    + eexists. split; [done|]. simpl. lia.
    + exists b. split; [done|lia].
  - eexists. split; [done|]. simpl. lia.
Qed.

(** Whatever holds of the initial best and of every candidate met holds
    of the result. *)
Lemma foldl_upd_ind (P : option Best → Prop) (keys : list (Z * Z))
    (best : option Best) :
  P best →
  (∀ k i, k ∈ keys → cand self k = Some i → P (Some (found k i))) →
  P (foldl upd best keys).
Proof.
  revert best. induction keys as [|k keys IH]; intros best H0 Hk; simpl; [done|].
  apply IH.
  - destruct (upd_cases best k) as [->|(i & Hc & ->)]; [done|].
    apply Hk; [by left|done].
  - intros k' i Hin. apply Hk. by right.
Qed.

Lemma foldl_upd_le (keys : list (Z * Z)) (b : Best) :
  ∃ b', foldl upd (Some b) keys = Some b' ∧ best_score b' ≤ best_score b.
Proof.
  revert b. induction keys as [|k keys IH]; intros b; simpl.
  - exists b. split; [done|lia].
  - destruct (upd_Some_le b k) as (b1 & -> & H1).
    destruct (IH b1) as (b2 & -> & H2). exists b2. split; [done|lia].
Qed.

(** The result is no worse than any candidate met. *)
Lemma foldl_upd_min (keys : list (Z * Z)) (best : option Best)
    (k : Z * Z) (i : nat) :
  k ∈ keys → cand self k = Some i →
  ∃ b', foldl upd best keys = Some b' ∧ best_score b' ≤ key_score k.
Proof.
  revert best. induction keys as [|k' keys IH]; intros best Hin Hc; simpl.
  - by apply elem_of_nil in Hin.
  - apply elem_of_cons in Hin as [<-|Hin].
    + destruct (upd_hit best k i Hc) as (b1 & -> & H1).
      destruct (foldl_upd_le keys b1) as (b2 & -> & H2).
      exists b2. split; [done|lia].
    + by apply IH.
Qed.

(** Keys that do not beat the current best leave it in place. *)
Lemma foldl_upd_same (keys : list (Z * Z)) (b : Best) :
  (∀ k i, k ∈ keys → cand self k = Some i → best_score b ≤ key_score k) →
  foldl upd (Some b) keys = Some b.
Proof.
  induction keys as [|k keys IH]; intros Hk; simpl; [done|].
  assert (upd (Some b) k = Some b) as ->.
  { unfold upd. destruct (cand self k) as [i|] eqn:Hc; [|done].
    specialize (Hk k i (list_elem_of_here _ _) Hc).
    destruct (Z.ltb_spec (key_score k) (best_score b)); [lia|done]. }
  apply IH. intros k' i Hin. apply Hk. by right.
Qed.

(** *** The keys of a radius *)

Lemma shell_bound (dL dKR : Z) (k : Z * Z) :
  0 ≤ dL → 0 ≤ dKR → k ∈ _iter_search_shell tL tkr dL dKR →
  (Z.abs (k.1 - tL) = dL ∨ Z.abs (k.1 - tL) = 0) ∧
  (Z.abs (k.2 - tkr) = dKR ∨ Z.abs (k.2 - tkr) = 0).
Proof.
  intros HdL HdKR. unfold _iter_search_shell.
  destruct (Z.eqb_spec dL 0) as [->|HL], (Z.eqb_spec dKR 0) as [->|HK]; simpl.
  - intros ->%list_elem_of_singleton. simpl. lia.
  - destruct (Z.ltb_spec 0 dKR); [|lia]. simpl.
    rewrite !elem_of_cons, elem_of_nil. intros [->|[->|[]]]; simpl; lia.
  - destruct (Z.ltb_spec 0 dL); [|lia]. simpl.
    rewrite !elem_of_cons, elem_of_nil. intros [->|[->|[]]]; simpl; lia.
  - destruct (Z.ltb_spec 0 dL); [|lia]. destruct (Z.ltb_spec 0 dKR); [|lia].
    simpl. rewrite !elem_of_cons, elem_of_nil.
    intros [->|[->|[->|[->|[->|[->|[->|[->|[]]]]]]]]]; simpl; lia.
Qed.

Lemma shell_cover (k : Z * Z) :
  k ∈ _iter_search_shell tL tkr (Z.abs (k.1 - tL)) (Z.abs (k.2 - tkr)).
Proof.
  destruct k as [a b]. simpl. unfold _iter_search_shell.
  destruct (Z.eqb_spec (Z.abs (a - tL)) 0) as [HL|HL],
           (Z.eqb_spec (Z.abs (b - tkr)) 0) as [HK|HK]; simpl.
  - apply list_elem_of_singleton. f_equal; lia.
  - destruct (Z.ltb_spec 0 (Z.abs (b - tkr))); [|lia]. simpl.
    rewrite !elem_of_cons.
    destruct (Z.abs_spec (b - tkr)) as [[? ->]|[? ->]];
      [right; left|left]; f_equal; lia.
  - destruct (Z.ltb_spec 0 (Z.abs (a - tL))); [|lia]. simpl.
    rewrite !elem_of_cons.
    destruct (Z.abs_spec (a - tL)) as [[? ->]|[? ->]];
      [right; left|left]; f_equal; lia.
  - destruct (Z.ltb_spec 0 (Z.abs (a - tL))); [|lia].
    destruct (Z.ltb_spec 0 (Z.abs (b - tkr))); [|lia]. simpl.
    rewrite !elem_of_cons.
    destruct (Z.abs_spec (a - tL)) as [[? ->]|[? ->]],
             (Z.abs_spec (b - tkr)) as [[? ->]|[? ->]].
    + do 3 right. left. f_equal; lia.
    + do 2 right. left. f_equal; lia.
    + right. left. f_equal; lia.
    + left. f_equal; lia.
Qed.

(** Every key examined at a radius lies within both windows, and its own
    distance to the target is at most that radius. *)
Lemma keys_at_bound (radius : Z) (k : Z * Z) :
  k ∈ keys_at self tL tkr radius →
  Z.abs (k.1 - tL) ≤ max_len_window self ∧
  Z.abs (k.2 - tkr) ≤ max_kr_window self ∧
  Z.abs (k.1 - tL) + Z.abs (k.2 - tkr) ≤ radius.
Proof.
  unfold keys_at. intros (dL & Hk & HdL)%list_elem_of_bind.
  apply elem_of_range in HdL.
  destruct (Z.ltb_spec (radius - dL) 0); simpl in Hk;
    [by apply elem_of_nil in Hk|].
  destruct (Z.ltb_spec (max_kr_window self) (radius - dL)); simpl in Hk;
    [by apply elem_of_nil in Hk|].
  apply shell_bound in Hk; lia.
Qed.

(** A key within both windows is examined at the radius equal to its own
    distance to the target. *)
Lemma keys_at_cover (k : Z * Z) :
  Z.abs (k.1 - tL) ≤ max_len_window self →
  Z.abs (k.2 - tkr) ≤ max_kr_window self →
  k ∈ keys_at self tL tkr (Z.abs (k.1 - tL) + Z.abs (k.2 - tkr)).
Proof.
  intros HL HK. unfold keys_at. apply list_elem_of_bind.
  exists (Z.abs (k.1 - tL)). split; [|apply elem_of_range; lia].
  replace (Z.abs (k.1 - tL) + Z.abs (k.2 - tkr) - Z.abs (k.1 - tL))
    with (Z.abs (k.2 - tkr)) by lia.
  destruct (Z.ltb_spec (Z.abs (k.2 - tkr)) 0); [lia|].
  destruct (Z.ltb_spec (max_kr_window self) (Z.abs (k.2 - tkr))); [lia|].
  simpl. apply shell_cover.
Qed.

End BestFacts.

(** ** The loop over the radii *)

Section RadiusFacts.

Variable self : DecoyMatcher.
Variables tL tkr : Z.

Local Abbreviation upd := (upd self tL tkr).
Local Abbreviation found := (found self tL tkr).
Local Abbreviation key_score := (key_score self tL tkr).
Local Abbreviation keys_at := (keys_at self tL tkr).
Local Abbreviation divisor := (divisor self).
Local Abbreviation stops := (stops self).
Local Abbreviation search_from := (search_from self tL tkr).
Local Abbreviation search_all := (search_all self tL tkr).

Lemma divisor_pos : 1 ≤ divisor.
Proof. unfold divisor. lia. Qed.

Lemma stop_test_pure (radius : Z) (best : option Best) :
  stop_test self radius best = Ok (stops radius best).
Proof.
  unfold stop_test, stops. destruct best as [b|]; [|done].
  unfold floordiv. fold divisor.
  destruct (Z.eqb_spec divisor 0) as [H0|_]; [|done].
  pose proof divisor_pos. lia.
Qed.

Hypothesis Hwf : wf self.

Lemma radius_loop_pure (rs : list Z) (best : option Best) :
  radius_loop self tL tkr rs best = Ok (search_from rs best).
Proof.
  revert best. induction rs as [|r rs IH]; intros best; simpl; [done|].
  rewrite radius_body_pure by done. simpl.
  rewrite stop_test_pure. simpl.
  destruct (stops r _); [done|apply IH].
Qed.

Lemma radius_loop_full_pure (rs : list Z) (best : option Best) :
  radius_loop_full self tL tkr rs best = Ok (search_all rs best).
Proof.
  unfold radius_loop_full, search_all. apply for_each_pure.
  intros r b _. by apply radius_body_pure.
Qed.

(** Whatever holds of the initial best and of every candidate of every
    radius holds of the result of the loop. *)
Lemma search_from_ind (P : option Best → Prop) (rs : list Z)
    (best : option Best) :
  P best →
  (∀ r k i, r ∈ rs → k ∈ keys_at r → cand self k = Some i →
            P (Some (found k i))) →
  P (search_from rs best).
Proof.
  revert best. induction rs as [|r rs IH]; intros best H0 Hk; simpl; [done|].
  assert (P (foldl upd best (keys_at r))) as H1.
  { apply foldl_upd_ind; [done|]. intros k i Hin Hc.
    apply (Hk r k i); [by left|done|done]. }
  destruct (stops r _); [done|].
  apply IH; [done|]. intros r' k i Hr'. apply Hk. by right.
Qed.

Lemma search_from_le (rs : list Z) (b : Best) :
  ∃ b', search_from rs (Some b) = Some b' ∧ best_score b' ≤ best_score b.
Proof.
  revert b. induction rs as [|r rs IH]; intros b; simpl.
  - exists b. split; [done|lia].
  - destruct (foldl_upd_le self tL tkr (keys_at r) b) as (b1 & -> & H1).
    destruct (stops r (Some b1)).
    + exists b1. split; [done|lia].
    + destruct (IH b1) as (b2 & -> & H2). exists b2. split; [done|lia].
Qed.

(** The loop reports a match as soon as some radius it is given holds a
    key with an available decoy: an early stop happens only with a match
    in hand. *)
Lemma search_from_is_Some (rs : list Z) (best : option Best)
    (r : Z) (k : Z * Z) (i : nat) :
  r ∈ rs → k ∈ keys_at r → cand self k = Some i →
  is_Some (search_from rs best).
Proof.
  revert best. induction rs as [|r0 rs IH]; intros best Hr Hk Hc; simpl.
  - by apply elem_of_nil in Hr.
  - destruct (stops r0 _) eqn:Hstop.
    + destruct (foldl upd best (keys_at r0)); [done|]. by simpl in Hstop.
    + apply elem_of_cons in Hr as [<-|Hr]; [|by apply IH].
      destruct (foldl_upd_min self tL tkr (keys_at r) best k i Hk Hc)
        as (b1 & -> & _).
      destruct (search_from_le rs b1) as (b2 & -> & _). done.
Qed.

(** Radii whose candidates do not beat the current best leave it in
    place, in either loop. *)
Lemma search_all_same (rs : list Z) (b : Best) :
  (∀ r k i, r ∈ rs → k ∈ keys_at r → cand self k = Some i →
            best_score b ≤ key_score k) →
  search_all rs (Some b) = Some b.
Proof.
  unfold search_all. induction rs as [|r rs IH]; intros Hk; simpl; [done|].
  rewrite foldl_upd_same.
  - apply IH. intros r' k i Hr'. apply Hk. by right.
  - intros k i Hin Hc. apply (Hk r k i); [by left|done|done].
Qed.

Lemma search_from_same (rs : list Z) (b : Best) :
  (∀ r k i, r ∈ rs → k ∈ keys_at r → cand self k = Some i →
            best_score b ≤ key_score k) →
  search_from rs (Some b) = Some b.
Proof.
  induction rs as [|r rs IH]; intros Hk; simpl; [done|].
  rewrite foldl_upd_same.
  - destruct (stops r (Some b)); [done|].
    apply IH. intros r' k i Hr'. apply Hk. by right.
  - intros k i Hin Hc. apply (Hk r k i); [by left|done|done].
Qed.

End RadiusFacts.

(** ** Early stop and exact keys *)

Section StopFacts.

Variable self : DecoyMatcher.
Variables tL tkr : Z.

Local Abbreviation upd := (upd self tL tkr).
Local Abbreviation found := (found self tL tkr).
Local Abbreviation key_score := (key_score self tL tkr).
Local Abbreviation keys_at := (keys_at self tL tkr).
Local Abbreviation search_from := (search_from self tL tkr).
Local Abbreviation search_all := (search_all self tL tkr).
Local Abbreviation dist := (dist tL tkr).
Local Abbreviation in_windows := (in_windows self tL tkr).
Local Abbreviation minimal_upto := (minimal_upto self tL tkr).

Lemma minimal_upto_step (a : Z) (best : option Best) :
  minimal_upto (a - 1) best →
  minimal_upto a (foldl upd best (keys_at a)).
Proof.
  intros Hmin k i [HwL HwK] Hd Hc.
  destruct (decide (dist k ≤ a - 1)) as [Hlt|Hge].
  - destruct (Hmin k i (conj HwL HwK) Hlt Hc) as (b0 & -> & H0).
    destruct (foldl_upd_le self tL tkr (keys_at a) b0) as (b1 & -> & H1).
    exists b1. split; [done|lia].
  - assert (a = dist k) as -> by lia.
    apply (foldl_upd_min self tL tkr _ best k i); [|done].
    by apply keys_at_cover.
Qed.

(** With positive weights a score is at least the divisor times the
    distance of its key. *)
Lemma key_score_lower (k : Z * Z) :
  0 < len_weight self → 0 < kr_weight self →
  divisor self * dist k ≤ key_score k.
Proof.
  intros HL HK. unfold divisor, dist, key_score.
  pose proof (Z.abs_nonneg (k.1 - tL)). pose proof (Z.abs_nonneg (k.2 - tkr)).
  rewrite Z.max_r by lia. nia.
Qed.

(** Once the test fires at radius [a], no key of any radius beats the
    best in hand. *)
Lemma stops_no_better (a : Z) (b : Best) (r : Z) (k : Z * Z) (i : nat) :
  0 < len_weight self → 0 < kr_weight self →
  minimal_upto a (Some b) → stops self a (Some b) = true →
  k ∈ keys_at r → cand self k = Some i →
  best_score b ≤ key_score k.
Proof.
  intros HL HK Hmin Hstop Hk Hc. simpl in Hstop.
  apply Z.ltb_lt in Hstop.
  apply keys_at_bound in Hk as (HwL & HwK & _).
  destruct (decide (dist k ≤ a)) as [Hle|Hgt].
  - destruct (Hmin k i (conj HwL HwK) Hle Hc) as (b0 & [= <-] & H0). done.
  - pose proof (key_score_lower k HL HK) as Hlow.
    pose proof (divisor_pos self) as Hd.
    pose proof (Z.mul_succ_div_gt (best_score b) (divisor self)) as Hdiv.
    nia.
Qed.

(** The radius loop with its early stop computes the same best as the
    loop over every radius, on consecutive radii [a, a+1, ...]. *)
Lemma early_stop_sound (n : nat) (a : Z) (best : option Best) :
  0 < len_weight self → 0 < kr_weight self →
  minimal_upto (a - 1) best →
  search_from (seqZ a (Z.of_nat n)) best = search_all (seqZ a (Z.of_nat n)) best.
Proof.
  intros HL HK. revert a best.
  induction n as [|n IH]; intros a best Hmin; [done|].
  rewrite seqZ_cons by lia.
  replace (Z.pred (Z.of_nat (S n))) with (Z.of_nat n) by lia.
  simpl. pose proof (minimal_upto_step a best Hmin) as Hmin'.
  destruct (stops self a _) eqn:Hstop.
  - destruct (foldl upd best (keys_at a)) as [b|] eqn:Hb; [|done].
    symmetry. apply search_all_same. intros r k i _.
    by apply (stops_no_better a b r k i).
  - apply IH. by replace (Z.succ a - 1) with a by lia.
Qed.

Lemma minimal_upto_neg (best : option Best) : minimal_upto (-1) best.
Proof.
  intros k i _ Hd _. unfold dist in Hd.
  pose proof (Z.abs_nonneg (k.1 - tL)). pose proof (Z.abs_nonneg (k.2 - tkr)).
  lia.
Qed.

Lemma search_radii_full :
  0 < len_weight self → 0 < kr_weight self →
  search_from (radii self) None = search_all (radii self) None.
Proof.
  intros HL HK. unfold radii, range.
  set (n := Z.max (max_len_window self) (max_kr_window self) + 1 - 0).
  destruct (decide (n ≤ 0)) as [Hn|Hn].
  - by rewrite seqZ_nil.
  - rewrite <- (Z2Nat.id n) by lia.
    apply early_stop_sound; [done..|]. apply minimal_upto_neg.
Qed.

(** With non-negative windows the first radius examines exactly the
    target's own key. *)
Lemma keys_at_0 :
  0 ≤ max_len_window self → 0 ≤ max_kr_window self →
  keys_at 0 = [(tL, tkr)].
Proof.
  intros HL HK. unfold keys_at.
  rewrite Z.max_l, Z.min_r by lia. rewrite range_cons, range_nil by lia.
  simpl. rewrite Z.sub_diag.
  destruct (Z.ltb_spec (max_kr_window self) 0); [lia|]. done.
Qed.

Lemma key_score_nonneg (k : Z * Z) :
  0 ≤ len_weight self → 0 ≤ kr_weight self → 0 ≤ key_score k.
Proof.
  intros HL HK. unfold key_score.
  pose proof (Z.abs_nonneg (k.1 - tL)). pose proof (Z.abs_nonneg (k.2 - tkr)).
  nia.
Qed.

(** An available decoy under the target's own key is returned with score
    zero. *)
Lemma search_exact (i : nat) :
  0 ≤ len_weight self → 0 ≤ kr_weight self →
  0 ≤ max_len_window self → 0 ≤ max_kr_window self →
  cand self (tL, tkr) = Some i →
  search_from (radii self) None
  = Some {| best_i := i; best_score := 0; best_dL := 0; best_dKR := 0 |}.
Proof.
  intros HL HK HwL HwK Hc. unfold radii.
  rewrite range_cons by lia. simpl.
  rewrite keys_at_0 by done. simpl.
  unfold upd. rewrite Hc.
  unfold found, key_score. simpl.
  rewrite !Z.sub_diag. simpl. rewrite !Z.mul_0_r. simpl.
  apply search_from_same. intros r k j _ _ _. simpl.
  by apply key_score_nonneg.
Qed.

End StopFacts.

(** ** The search method *)

Lemma search_all_ind (self : DecoyMatcher) (tL tkr : Z)
    (P : option Best → Prop) (rs : list Z) (best : option Best) :
  P best →
  (∀ r k i, r ∈ rs → k ∈ keys_at self tL tkr r → cand self k = Some i →
            P (Some (found self tL tkr k i))) →
  P (search_all self tL tkr rs best).
Proof.
  unfold search_all. revert best.
  induction rs as [|r rs IH]; intros best H0 Hk; simpl; [done|].
  apply IH.
  - apply foldl_upd_ind; [done|]. intros k i Hin Hc.
    apply (Hk r k i); [by left|done|done].
  - intros r' k i Hr'. apply Hk. by right.
Qed.

Lemma search_from_chosen (self : DecoyMatcher) (tL tkr : Z) (b : Best) :
  search_from self tL tkr (radii self) None = Some b → chosen self tL tkr b.
Proof.
  revert b. apply (search_from_ind self tL tkr
    (λ best, ∀ b, best = Some b → chosen self tL tkr b)); [done|].
  intros r k i Hr Hk Hc b [= <-]. by exists r, k.
Qed.

Lemma search_all_chosen (self : DecoyMatcher) (tL tkr : Z) (b : Best) :
  search_all self tL tkr (radii self) None = Some b → chosen self tL tkr b.
Proof.
  revert b. apply (search_all_ind self tL tkr
    (λ best, ∀ b, best = Some b → chosen self tL tkr b)); [done|].
  intros r k i Hr Hk Hc b [= <-]. by exists r, k.
Qed.

(** What a chosen candidate says about the decoy at its position. *)
Lemma chosen_decoy (self : DecoyMatcher) (tL tkr : Z) (b : Best) :
  wf self → chosen self tL tkr b →
  avail self (best_i b) ∧
  ∃ d, decoys self !! best_i b = Some d ∧
       Z.abs (len (seq d) - tL) ≤ max_len_window self ∧
       Z.abs (_kr_count (seq d) - tkr) ≤ max_kr_window self ∧
       best_dL b = Z.abs (len (seq d) - tL) ∧
       best_dKR b = Z.abs (_kr_count (seq d) - tkr) ∧
       best_score b = len_weight self * Z.abs (len (seq d) - tL)
                      + kr_weight self * Z.abs (_kr_count (seq d) - tkr).
Proof.
  intros Hwf (r & k & Hr & Hk & Hc & Hb).
  apply (cand_Some self Hwf) in Hc as (Ha & d & Hd & Hkey).
  split; [done|]. exists d. split; [done|].
  apply keys_at_bound in Hk as (HwL & HwK & _).
  rewrite Hb. subst k. simpl in *. unfold key_score. simpl. done.
Qed.

Lemma mark_used_avail (self : DecoyMatcher) (i : nat) :
  avail self i → mark_used i self = (Ok (), commit self i).
Proof.
  intros Ha. unfold mark_used. apply lookup_lt_Some in Ha.
  by rewrite decide_True.
Qed.

(** On a well-formed object the search raises nothing: it returns the
    best of the radius loop and marks its position. *)
Lemma find_best_match_pure (t : FastaRecord) (self : DecoyMatcher) :
  wf self →
  find_best_match t self =
  match search_from self (len (seq t)) (_kr_count (seq t)) (radii self) None with
  | None => (Ok None, self)
  | Some b => (Ok (Some (result_of b)), commit self (best_i b))
  end.
Proof.
  intros Hwf. unfold find_best_match. rewrite radius_loop_pure by done.
  destruct (search_from _ _ _ _ _) as [b|] eqn:Hs; [|done].
  apply search_from_chosen in Hs.
  apply chosen_decoy in Hs as [Ha _]; [|done].
  unfold mbind. rewrite mark_used_avail by done.
  unfold mret, result_of. by rewrite !or0_id.
Qed.

Lemma find_best_match_full_pure (t : FastaRecord) (self : DecoyMatcher) :
  wf self →
  find_best_match_full t self =
  match search_all self (len (seq t)) (_kr_count (seq t)) (radii self) None with
  | None => (Ok None, self)
  | Some b => (Ok (Some (result_of b)), commit self (best_i b))
  end.
Proof.
  intros Hwf. unfold find_best_match_full. rewrite radius_loop_full_pure by done.
  destruct (search_all _ _ _ _ _) as [b|] eqn:Hs; [|done].
  apply search_all_chosen in Hs.
  apply chosen_decoy in Hs as [Ha _]; [|done].
  unfold mbind. rewrite mark_used_avail by done.
  unfold mret, result_of. by rewrite !or0_id.
Qed.

(** The outcomes of one search, on a well-formed object. *)
Lemma find_best_match_cases (t : FastaRecord) (self : DecoyMatcher) :
  wf self →
  find_best_match t self = (Ok None, self) ∨
  ∃ b, chosen self (len (seq t)) (_kr_count (seq t)) b ∧
       find_best_match t self = (Ok (Some (result_of b)), commit self (best_i b)).
Proof.
  intros Hwf. rewrite find_best_match_pure by done.
  destruct (search_from _ _ _ _ _) as [b|] eqn:Hs; [|by left].
  right. exists b. split; [|done]. by apply search_from_chosen.
Qed.

Lemma commit_wf (self : DecoyMatcher) (i : nat) : wf self → wf (commit self i).
Proof. apply set_used_wf. Qed.

Lemma find_best_match_wf (t : FastaRecord) (self self' : DecoyMatcher)
    (r : result (option MatchResult)) :
  wf self → find_best_match t self = (r, self') → wf self'.
Proof.
  intros Hwf H.
  destruct (find_best_match_cases t self Hwf) as [H1|(b & _ & H1)];
    rewrite H1 in H; injection H as <- <-; [done|by apply commit_wf].
Qed.

Lemma reachable_wf (self : DecoyMatcher) : reachable self → wf self.
Proof.
  induction 1 as [ds lw kw mlw mkw self H|t self r self' _ IH H].
  - by eapply init_wf.
  - by eapply find_best_match_wf.
Qed.

(** ** The orchestrating loop *)

Lemma out_app_nil_r (o : Output) : out_app o out_nil = o.
Proof. destruct o. unfold out_app. simpl. by rewrite !app_nil_r. Qed.

(** The lists accumulated so far are only ever extended. *)
Lemma match_all_loop_acc (ts : list FastaRecord) (acc : Output)
    (self : DecoyMatcher) :
  match_all_loop ts acc self = on_ok (out_app acc) (match_all ts self).
Proof.
  unfold match_all. revert acc self.
  induction ts as [|t ts IH]; intros acc self; simpl.
  - unfold mret. simpl. by rewrite out_app_nil_r.
  - unfold mbind.
    destruct (find_best_match t self) as [[[[[[i sc] x] y]|]|e] s]; [| |done].
    + unfold get_decoy. destruct (decoys s !! i) as [d|]; [|done].
      unfold lift. destruct (make_row t d sc) as [row|e]; [|done].
      rewrite (IH {| pairs := pairs acc ++ [(t, d)]; rows := rows acc ++ [row];
                     unmatched := unmatched acc |} s),
              (IH {| pairs := [(t, d)]; rows := [row]; unmatched := [] |} s).
      fold out_nil.
      destruct (match_all_loop ts out_nil s) as [[o|e] s']; simpl; [|done].
      unfold out_app. simpl. by rewrite <- !app_assoc.
    + rewrite (IH {| pairs := pairs acc; rows := rows acc;
                     unmatched := unmatched acc ++ [t] |} s),
              (IH {| pairs := []; rows := []; unmatched := [t] |} s).
      fold out_nil.
      destruct (match_all_loop ts out_nil s) as [[o|e] s']; simpl; [|done].
      unfold out_app. simpl. by rewrite <- !app_assoc.
Qed.

(** One iteration of the loop of [match_all]. *)
Lemma match_all_cons (t : FastaRecord) (ts : list FastaRecord)
    (self : DecoyMatcher) :
  match_all (t :: ts) self =
  match find_best_match t self with
  | (Ok None, s) => on_ok (out_miss t) (match_all ts s)
  | (Ok (Some (i, sc, _, _)), s) =>
      match decoys s !! i with
      | None => (Raise IndexError, s)
      | Some d =>
          match make_row t d sc with
          | Raise e => (Raise e, s)
          | Ok row => on_ok (out_hit t d row) (match_all ts s)
          end
      end
  | (Raise e, s) => (Raise e, s)
  end.
Proof.
  unfold match_all at 1. simpl. unfold mbind.
  destruct (find_best_match t self) as [[[[[[i sc] x] y]|]|e] s]; [| |done].
  - unfold get_decoy. destruct (decoys s !! i) as [d|]; [|done].
    unfold lift. destruct (make_row t d sc) as [row|e]; [|done].
    rewrite match_all_loop_acc.
    destruct (match_all ts s) as [[o|e] s']; [|done]. done.
  - rewrite match_all_loop_acc.
    destruct (match_all ts s) as [[o|e] s']; [|done]. done.
Qed.

Lemma match_all_Run (ts : list FastaRecord) (self self' : DecoyMatcher)
    (out : Output) :
  wf self → match_all ts self = (Ok out, self') → Run self ts out self'.
Proof.
  revert self out. induction ts as [|t ts IH]; intros self out Hwf H.
  - injection H as <- <-. constructor.
  - rewrite match_all_cons in H.
    destruct (find_best_match_cases t self Hwf) as [H1|(b & Hb & H1)];
      rewrite H1 in H.
    + destruct (match_all ts self) as [[o|e] s'] eqn:Hrest; [|done].
      injection H as <- <-. apply Run_miss; [done|]. by apply IH.
    + unfold result_of in H. simpl in H.
      destruct (decoys self !! best_i b) as [d|] eqn:Hd; [|done].
      destruct (make_row t d (best_score b)) as [row|e] eqn:Hrow; [|done].
      destruct (match_all ts (commit self (best_i b))) as [[o|e] s'] eqn:Hrest;
        [|done].
      injection H as <- <-. eapply Run_hit; [done..|].
      apply IH; [by apply commit_wf|done].
Qed.

Lemma Run_match_all (ts : list FastaRecord) (self self' : DecoyMatcher)
    (out : Output) :
  Run self ts out self' → match_all ts self = (Ok out, self').
Proof.
  induction 1 as [self|self t ts o self' H1 _ IH
                 |self t ts b d row o self' _ H1 Hd Hrow _ IH].
  - done.
  - by rewrite match_all_cons, H1, IH.
  - rewrite match_all_cons, H1. unfold result_of. simpl.
    by rewrite Hd, Hrow, IH.
Qed.

(** * The properties of the specification *)

Lemma reachable_new (ds : list FastaRecord) (lw kw mlw mkw : Z) :
  reachable (new_matcher ds lw kw mlw mkw).
Proof. by apply (reach_init ds lw kw mlw mkw). Qed.

(** ** The scenarios of the specification *)

(** Scenario A: an exact decoy is taken with score 0. *)
Example scenario_A :
  let self := new_matcher [rec_of "d1" (residues 10 2); rec_of "d2" (residues 12 3)]
                1 10 2000 2000 in
  find_best_match (rec_of "t" (residues 10 2)) self
  = (Ok (Some (0%nat, 0, 0, 0)), commit self 0).
Proof. vm_compute. reflexivity. Qed.

(** Scenario B: of two identical targets the first takes the only decoy
    and the second is unmatched. *)
Example scenario_B :
  let t := rec_of "t" (residues 10 2) in
  let d := rec_of "d" (residues 10 2) in
  ∃ row self',
    match_all [t; t] (new_matcher [d] 1 10 3 3)
    = (Ok {| pairs := [(t, d)]; rows := [row]; unmatched := [t] |}, self') ∧
    score row = 0.
Proof. eexists _, _. split; [vm_compute; reflexivity|]. done. Qed.

(** Scenario C: five residues of length cost less than five K+R. *)
Example scenario_C :
  let self := new_matcher [rec_of "d1" (residues 105 5); rec_of "d2" (residues 95 10)]
                1 10 10 10 in
  find_best_match (rec_of "t" (residues 100 5)) self
  = (Ok (Some (0%nat, 5, 5, 0)), commit self 0).
Proof. vm_compute. reflexivity. Qed.

(** Scenario D: with both windows 0 only an exact key matches. *)
Example scenario_D :
  let self := new_matcher [rec_of "d1" (residues 11 2)] 1 10 0 0 in
  find_best_match (rec_of "t" (residues 10 2)) self = (Ok None, self).
Proof. vm_compute. reflexivity. Qed.

(** ** Search *)

(** C6.  Early-termination soundness: with both weights positive, the
    search with its early stop returns the same position, score and
    deltas, and leaves the same object, as the search that processes every
    radius up to [max(max_len_window, max_kr_window)]. *)
Theorem early_termination_sound (self : DecoyMatcher) (t : FastaRecord) :
  reachable self → 0 < len_weight self → 0 < kr_weight self →
  find_best_match t self = find_best_match_full t self.
Proof.
  intros Hr HL HK. apply reachable_wf in Hr.
  rewrite find_best_match_pure, find_best_match_full_pure by done.
  by rewrite search_radii_full.
Qed.

Lemma early_termination_sound_witness :
  let self := new_matcher pool_near 1 10 5 5 in
  reachable self ∧ 0 < len_weight self ∧ 0 < kr_weight self ∧
  find_best_match (rec_of "t" "AKR") self
  = find_best_match_full (rec_of "t" "AKR") self.
Proof.
  simpl. split; [apply reachable_new|]. split; [done|]. split; [done|].
  apply early_termination_sound; [apply reachable_new|done|done].
Defined.

(** C5.  Exact-match preference: when some available decoy has the
    target's length and K+R count, the search returns, for all positive
    weights and non-negative windows, an available decoy with that length
    and K+R count, with score 0 and both deltas 0. *)
Theorem exact_match_preference (self : DecoyMatcher) (t : FastaRecord)
    (j : nat) (d : FastaRecord) :
  reachable self →
  0 < len_weight self → 0 < kr_weight self →
  0 ≤ max_len_window self → 0 ≤ max_kr_window self →
  decoys self !! j = Some d → avail self j →
  len (seq d) = len (seq t) → _kr_count (seq d) = _kr_count (seq t) →
  ∃ i d', find_best_match t self = (Ok (Some (i, 0, 0, 0)), commit self i) ∧
          decoys self !! i = Some d' ∧ avail self i ∧
          len (seq d') = len (seq t) ∧
          _kr_count (seq d') = _kr_count (seq t).
Proof.
  intros Hr HL HK HwL HwK Hd Ha HlenEq HkrEq. apply reachable_wf in Hr.
  destruct (cand_is_Some self Hr j d Hd Ha) as [i Hc].
  assert (key_of d = (len (seq t), _kr_count (seq t))) as Hkey
    by (unfold key_of; congruence).
  rewrite Hkey in Hc.
  pose proof (search_exact self _ _ i ltac:(lia) ltac:(lia) HwL HwK Hc) as Hs.
  destruct (cand_Some self Hr _ _ Hc) as (Hai & d' & Hd' & Hk').
  exists i, d'. rewrite find_best_match_pure, Hs by done.
  injection Hk' as Hk1 Hk2. done.
Qed.

Lemma exact_match_preference_witness :
  let self := new_matcher pool_near 3 7 4 4 in
  ∃ i d', find_best_match (rec_of "t" "RAK") self
          = (Ok (Some (i, 0, 0, 0)), commit self i) ∧
          decoys self !! i = Some d' ∧ avail self i ∧
          len (seq d') = len "RAK" ∧ _kr_count (seq d') = _kr_count "RAK".
Proof.
  simpl.
  apply (exact_match_preference (new_matcher pool_near 3 7 4 4)
           (rec_of "t" "RAK") 0%nat (rec_of "d1 first" "KRA"));
    [apply reachable_new|done..].
Defined.

(** Against C10.  With a zero weight the early stop does more than prune
    less: it changes the result.  With weights (0, 5) the search stops
    after radius 6 holding the decoy one K away, of score 5; the search
    over every radius reaches, at radius 7, the decoy of score 0. *)
Lemma zero_weight_prunes_better_decoy :
  let self := new_matcher [rec_of "d1" (residues 10 2);
                           rec_of "d2" (residues 17 1)] 0 5 10 10 in
  let t := rec_of "t" (residues 10 1) in
  find_best_match t self = (Ok (Some (0%nat, 5, 0, 1)), commit self 0) ∧
  find_best_match_full t self = (Ok (Some (1%nat, 0, 7, 0)), commit self 1).
Proof. split; vm_compute; reflexivity. Qed.

(** C10, as the code has it.  Whatever the weights, zero and negative ones
    included, the search raises nothing, in particular no
    [ZeroDivisionError]: the divisor of the early-stop test is at least 1,
    the test always returns a boolean, and the search returns a result.
    What it returns is still an available decoy within both windows, with
    the weighted distance of that decoy as its score.  With a weight that
    is not positive the divisor is exactly 1 and the loop stops as soon as
    the radius exceeds the best score. *)
Theorem zero_weight_tolerated (self : DecoyMatcher) (t : FastaRecord) :
  reachable self →
  (∃ r self', find_best_match t self = (Ok r, self')) ∧
  (∀ radius best, ∃ b, stop_test self radius best = Ok b) ∧
  1 ≤ Z.max 1 (Z.min (len_weight self) (kr_weight self)) ∧
  (∀ i sc dl dk self',
     find_best_match t self = (Ok (Some (i, sc, dl, dk)), self') →
     ∃ d, decoys self !! i = Some d ∧ avail self i ∧
          within_windows self t d ∧
          sc = len_weight self * Z.abs (len (seq d) - len (seq t))
               + kr_weight self
                 * Z.abs (_kr_count (seq d) - _kr_count (seq t))) ∧
  (len_weight self ≤ 0 ∨ kr_weight self ≤ 0 →
   Z.max 1 (Z.min (len_weight self) (kr_weight self)) = 1 ∧
   ∀ radius b, stop_test self radius (Some b) = Ok (best_score b <? radius)).
Proof.
  intros Hr. apply reachable_wf in Hr. split; [|split; [|split; [|split]]].
  - destruct (find_best_match_cases t self Hr) as [H|(b & _ & H)];
      rewrite H; eauto.
  - intros radius best. rewrite stop_test_pure. eauto.
  - lia.
  - intros i sc dl dk self' H.
    destruct (find_best_match_cases t self Hr) as [H1|(b & Hb & H1)];
      rewrite H1 in H; [done|].
    injection H as <- <- _ _ _.
    apply chosen_decoy in Hb as (Ha & d & Hd & HL & HK & _ & _ & Hsc); [|done].
    exists d. by repeat split.
  - intros Hw.
    assert (Z.max 1 (Z.min (len_weight self) (kr_weight self)) = 1) as Hd
      by lia.
    split; [done|]. intros radius b. unfold stop_test, floordiv.
    rewrite Hd. simpl. by rewrite Z.div_1_r.
Qed.

Lemma zero_weight_tolerated_witness :
  let self := new_matcher pool_near 0 0 4 4 in
  let t := rec_of "t" "AK" in
  (∃ r self', find_best_match t self = (Ok r, self')) ∧
  (∀ radius best, ∃ b, stop_test self radius best = Ok b) ∧
  1 ≤ Z.max 1 (Z.min (len_weight self) (kr_weight self)) ∧
  (∀ i sc dl dk self',
     find_best_match t self = (Ok (Some (i, sc, dl, dk)), self') →
     ∃ d, decoys self !! i = Some d ∧ avail self i ∧
          within_windows self t d ∧
          sc = len_weight self * Z.abs (len (seq d) - len (seq t))
               + kr_weight self
                 * Z.abs (_kr_count (seq d) - _kr_count (seq t))) ∧
  (len_weight self ≤ 0 ∨ kr_weight self ≤ 0 →
   Z.max 1 (Z.min (len_weight self) (kr_weight self)) = 1 ∧
   ∀ radius b, stop_test self radius (Some b) = Ok (best_score b <? radius)).
Proof.
  intros self t. apply (zero_weight_tolerated self t). apply reachable_new.
Defined.

(** ** Construction *)

(** Against C7.  The constructor accepts a zero and a negative weight: it returns an
    object instead of raising. *)
Lemma init_nonpositive_weight_accepted :
  ∃ self, __init__ pool_near 0 (-1) 2000 2000 = Ok self ∧
          len_weight self = 0 ∧ kr_weight self = -1.
Proof. eexists. split; [reflexivity|]. done. Qed.

(** C7, as the code has it.  The constructor validates nothing: for all
    weights and windows, the non-positive ones included, it returns an
    object that stores them as given. *)
Theorem init_accepts_any_weight (ds : list FastaRecord) (lw kw mlw mkw : Z) :
  ∃ self, __init__ ds lw kw mlw mkw = Ok self ∧
          decoys self = ds ∧
          len_weight self = lw ∧ kr_weight self = kw ∧
          max_len_window self = mlw ∧ max_kr_window self = mkw ∧
          _used self = replicate (length ds) false.
Proof. eexists. split; [reflexivity|]. done. Qed.

(** ** Availability flags *)

(** Against C2.  The search itself writes the flag array: a successful call leaves the
    winner's flag set. *)
Lemma search_mutates_flags :
  let self := new_matcher pool_near 1 10 4 4 in
  ∃ self', find_best_match (rec_of "t" "AKR") self
           = (Ok (Some (1%nat, 0, 0, 0)), self') ∧
           _used self = [false; false; false] ∧
           _used self' = [false; true; false].
Proof. eexists. split; [vm_compute; reflexivity|]. done. Qed.

(** C2, as the code has it.  The flag of the winner is set by the search
    itself, as its last step: a call that finds no decoy leaves the object
    as it is; a call that finds position [i] found it available and changes
    the flag array at [i] only, to [True].  The orchestrator writes no flag
    of its own: the next target is processed on exactly the object the
    search returned. *)
Theorem search_commits_winner (self self' : DecoyMatcher) (t : FastaRecord)
    (r : result (option MatchResult)) :
  reachable self → find_best_match t self = (r, self') →
  ((r = Ok None ∧ self' = self) ∨
   (∃ i sc x y, r = Ok (Some (i, sc, x, y)) ∧ avail self i ∧
                _used self' = <[i := true]> (_used self) ∧
                self' = commit self i)) ∧
  (∀ ts out self'', match_all (t :: ts) self = (Ok out, self'') →
                    ∃ out', match_all ts self' = (Ok out', self'')).
Proof.
  intros Hr H. apply reachable_wf in Hr. split.
  - destruct (find_best_match_cases t self Hr) as [H1|(b & Hb & H1)];
      rewrite H1 in H; injection H as <- <-; [by left|right].
    apply chosen_decoy in Hb as [Ha _]; [|done].
    exists (best_i b), (best_score b), (best_dL b), (best_dKR b). done.
  - intros ts out self'' Hall. rewrite match_all_cons, H in Hall.
    destruct r as [[[[[i sc] x] y]|]|e]; [| |done].
    + destruct (decoys self' !! i) as [d|]; [|done].
      destruct (make_row t d sc) as [row|e]; [|done].
      destruct (match_all ts self') as [[o|e] s]; [|done].
      injection Hall as _ <-. eauto.
    + destruct (match_all ts self') as [[o|e] s]; [|done].
      injection Hall as _ <-. eauto.
Qed.

Lemma search_commits_winner_witness :
  let self := new_matcher pool_near 1 10 4 4 in
  let self' := commit self 1 in
  let r := Ok (Some (1%nat, 0, 0, 0)) in
  ((r = Ok None ∧ self' = self) ∨
   (∃ i sc x y, r = Ok (Some (i, sc, x, y)) ∧ avail self i ∧
                _used self' = <[i := true]> (_used self) ∧
                self' = commit self i)) ∧
  (∀ ts out self'',
     match_all (rec_of "t" "AKR" :: ts) self = (Ok out, self'') →
     ∃ out', match_all ts self' = (Ok out', self'')).
Proof.
  simpl.
  apply (search_commits_winner (new_matcher pool_near 1 10 4 4));
    [apply reachable_new|vm_compute; reflexivity].
Defined.

(** ** Rows *)

(** What [make_row] puts in a row. *)
Lemma make_row_fields (t d : FastaRecord) (sc : Z) (row : MatchRow) :
  make_row t d sc = Ok row →
  name t = Ok (target_name row) ∧ name d = Ok (decoy_name row) ∧
  target_len row = len (seq t) ∧ decoy_len row = len (seq d) ∧
  target_k row = _k_count (seq t) ∧ target_r row = _r_count (seq t) ∧
  decoy_k row = _k_count (seq d) ∧ decoy_r row = _r_count (seq d) ∧
  target_kr row = _kr_count (seq t) ∧ decoy_kr row = _kr_count (seq d) ∧
  len_diff row = Z.abs (len (seq t) - len (seq d)) ∧
  kr_diff row = Z.abs (_kr_count (seq t) - _kr_count (seq d)) ∧
  score row = sc.
Proof.
  unfold make_row. destruct (name t) as [tn|e]; [|done].
  destruct (name d) as [dn|e]; [|done]. simpl. intros [= <-]. simpl.
  rewrite !kr_count_sum. done.
Qed.

Lemma Run_rows_scored (self self' : DecoyMatcher) (ts : list FastaRecord)
    (out : Output) :
  Run self ts out self' → wf self →
  Forall2 (row_scored (len_weight self) (kr_weight self)) (pairs out) (rows out).
Proof.
  induction 1 as [self|self t ts o self' H1 _ IH
                 |self t ts b d row o self' Hb H1 Hd Hrow _ IH]; intros Hwf.
  - constructor.
  - simpl. by apply IH.
  - simpl. constructor; [|by apply IH, commit_wf].
    apply make_row_fields in Hrow
      as (_ & _ & HtL & HdL & _ & _ & _ & _ & HtKR & HdKR & HlD & HkD & Hsc).
    apply chosen_decoy in Hb as (_ & d' & Hd' & _ & _ & _ & _ & Hscore);
      [|done].
    rewrite Hd in Hd'. injection Hd' as <-.
    unfold row_scored. simpl. rewrite HtL, HdL, HtKR, HdKR, HlD, HkD, Hsc, Hscore.
    replace (Z.abs (len (seq d) - len (seq t)))
      with (Z.abs (len (seq t) - len (seq d))) by lia.
    replace (Z.abs (_kr_count (seq d) - _kr_count (seq t)))
      with (Z.abs (_kr_count (seq t) - _kr_count (seq d))) by lia.
    done.
Qed.

(** C3.  Score correctness: every row of [match_all] is aligned with its
    pair, reports the length and K+R count of that pair's target and
    decoy, has [len_diff = |target_len - decoy_len|] and
    [kr_diff = |target_kr - decoy_kr|], and its score is exactly
    [len_weight * len_diff + kr_weight * kr_diff]. *)
Theorem score_correct (self self' : DecoyMatcher) (ts : list FastaRecord)
    (out : Output) :
  reachable self → match_all ts self = (Ok out, self') →
  Forall2 (row_scored (len_weight self) (kr_weight self))
          (pairs out) (rows out).
Proof.
  intros Hr H. apply reachable_wf in Hr.
  eapply Run_rows_scored; [by apply match_all_Run|done].
Qed.

Lemma score_correct_witness :
  let self := new_matcher pool_near 2 5 4 4 in
  ∃ out self',
    match_all [rec_of "t1" "AAAKR"; rec_of "t2" "KRA"] self = (Ok out, self') ∧
    Forall2 (row_scored 2 5) (pairs out) (rows out) ∧
    score <$> rows out = [2; 0].
Proof.
  simpl. eexists _, _. split; [vm_compute; reflexivity|]. split; [|done].
  eapply (score_correct (new_matcher pool_near 2 5 4 4) _
            [rec_of "t1" "AAAKR"; rec_of "t2" "KRA"]);
    [apply reachable_new|vm_compute; reflexivity].
Defined.

(** ** Conservation *)

Lemma Split_length {A : Type} (l l1 l2 : list A) :
  Split l l1 l2 → (length l1 + length l2 = length l)%nat.
Proof. induction 1; simpl; lia. Qed.

Lemma Run_split (self self' : DecoyMatcher) (ts : list FastaRecord)
    (out : Output) :
  Run self ts out self' →
  Split ts (pairs out).*1 (unmatched out) ∧
  Forall2 (λ p row, make_row p.1 p.2 (score row) = Ok row)
          (pairs out) (rows out).
Proof.
  induction 1 as [self|self t ts o self' H1 _ [IH1 IH2]
                 |self t ts b d row o self' Hb H1 Hd Hrow _ [IH1 IH2]]; simpl.
  - split; constructor.
  - split; [by constructor|done].
  - split; [by constructor|]. constructor; [|done]. simpl.
    pose proof (make_row_fields _ _ _ _ Hrow) as Hf.
    destruct Hf as (_ & _ & _ & _ & _ & _ & _ & _ & _ & _ & _ & _ & ->). done.
Qed.

(** C8.  Conservation: the matched and the unmatched targets together
    are the input targets, each input position in exactly one of the two
    lists and each list in input order; there is one row per pair, in the
    order of the pairs, each the row of its pair; and the counts add up to
    the number of targets. *)
Theorem conservation (self self' : DecoyMatcher) (ts : list FastaRecord)
    (out : Output) :
  reachable self → match_all ts self = (Ok out, self') →
  (length (pairs out) + length (unmatched out) = length ts)%nat ∧
  length (rows out) = length (pairs out) ∧
  Split ts (pairs out).*1 (unmatched out) ∧
  Forall2 (λ p row, make_row p.1 p.2 (score row) = Ok row)
          (pairs out) (rows out).
Proof.
  intros Hr H. apply reachable_wf in Hr.
  apply match_all_Run in H; [|done].
  destruct (Run_split _ _ _ _ H) as [Hs Hrows].
  split; [|split; [|done]].
  - apply Split_length in Hs. by rewrite length_fmap in Hs.
  - symmetry. by eapply Forall2_length.
Qed.

Lemma conservation_witness :
  let self := new_matcher pool_near 1 10 1 1 in
  let ts := [rec_of "t1" "AKR"; rec_of "t2" "A"; rec_of "t3" "AKR";
             rec_of "t4" "AKR"] in
  ∃ out self',
    match_all ts self = (Ok out, self') ∧
    (pairs out).*1 = [rec_of "t1" "AKR"; rec_of "t3" "AKR"] ∧
    unmatched out = [rec_of "t2" "A"; rec_of "t4" "AKR"] ∧
    (length (pairs out) + length (unmatched out) = length ts)%nat ∧
    length (rows out) = length (pairs out) ∧
    Split ts (pairs out).*1 (unmatched out) ∧
    Forall2 (λ p row, make_row p.1 p.2 (score row) = Ok row)
            (pairs out) (rows out).
Proof.
  intros self ts. eexists _, _. split; [vm_compute; reflexivity|].
  split; [done|]. split; [done|].
  eapply (conservation self); [apply reachable_new|vm_compute; reflexivity].
Defined.

(** ** Uniqueness *)

Lemma commit_lookup_same (self : DecoyMatcher) (i : nat) :
  avail self i → _used (commit self i) !! i = Some true.
Proof.
  intros Ha. simpl. apply list_lookup_insert_eq. by eapply lookup_lt_Some.
Qed.

Lemma commit_lookup_other (self : DecoyMatcher) (i j : nat) :
  i ≠ j → _used (commit self i) !! j = _used self !! j.
Proof. intros Hne. simpl. by apply list_lookup_insert_ne. Qed.

Lemma commit_avail (self : DecoyMatcher) (i j : nat) :
  avail self i → avail (commit self i) j → j ≠ i ∧ avail self j.
Proof.
  intros Hi Hj. unfold avail in Hj. destruct (decide (j = i)) as [->|Hne].
  - rewrite commit_lookup_same in Hj by done. done.
  - rewrite commit_lookup_other in Hj by done. done.
Qed.

Lemma Run_committed (self self' : DecoyMatcher) (ts : list FastaRecord)
    (out : Output) :
  Run self ts out self' → wf self →
  NoDup (committed ts self) ∧
  (∀ i, i ∈ committed ts self → avail self i) ∧
  Forall2 (λ i p, decoys self !! i = Some p.2) (committed ts self) (pairs out) ∧
  (∀ j, j ∈ committed ts self → _used self' !! j = Some true) ∧
  (∀ j, j ∉ committed ts self → _used self' !! j = _used self !! j).
Proof.
  induction 1 as [self|self t ts o self' H1 _ IH
                 |self t ts b d row o self' Hb H1 Hd Hrow _ IH]; intros Hwf.
  - simpl. split; [constructor|]. split; [by intros j ?%elem_of_nil|].
    split; [constructor|]. split; [by intros j ?%elem_of_nil|done].
  - simpl. rewrite H1. by apply IH.
  - simpl. rewrite H1. unfold result_of.
    apply chosen_decoy in Hb as [Ha _]; [|done].
    destruct (IH (commit_wf _ _ Hwf)) as (Hnd & Hav & Hdec & Hset & Hkeep).
    assert (best_i b ∉ committed ts (commit self (best_i b))) as Hfresh.
    { intros Hin. apply Hav in Hin.
      by destruct (commit_avail _ _ _ Ha Hin). }
    split; [by constructor|]. split; [|split; [|split]].
    + intros i [->|Hin]%elem_of_cons; [done|].
      by destruct (commit_avail _ _ _ Ha (Hav i Hin)).
    + by constructor.
    + intros j [->|Hin]%elem_of_cons; [|by apply Hset].
      rewrite Hkeep by done. by apply commit_lookup_same.
    + intros j Hj. apply not_elem_of_cons in Hj as [Hne Hj].
      rewrite Hkeep by done. by apply commit_lookup_other.
Qed.

(** C4.  Uniqueness of assignment: the positions committed over a run
    are pairwise distinct; the k-th pair holds the decoy at the k-th
    committed position; each committed position was available before the
    run and is used after it; every other flag is as it was, so no flag
    goes back from used to available. *)
Theorem uniqueness (self self' : DecoyMatcher) (ts : list FastaRecord)
    (out : Output) :
  reachable self → match_all ts self = (Ok out, self') →
  NoDup (committed ts self) ∧
  Forall2 (λ i p, decoys self !! i = Some p.2) (committed ts self) (pairs out) ∧
  (∀ i, i ∈ committed ts self →
        _used self !! i = Some false ∧ _used self' !! i = Some true) ∧
  (∀ j, j ∉ committed ts self → _used self' !! j = _used self !! j) ∧
  (∀ j, _used self !! j = Some true → _used self' !! j = Some true).
Proof.
  intros Hr H. apply reachable_wf in Hr.
  apply match_all_Run in H; [|done].
  destruct (Run_committed _ _ _ _ H Hr) as (Hnd & Hav & Hdec & Hset & Hkeep).
  split; [done|]. split; [done|]. split; [|split; [done|]].
  - intros i Hi. split; [by apply Hav|by apply Hset].
  - intros j Hj. destruct (decide (j ∈ committed ts self)) as [Hin|Hout].
    + by apply Hset.
    + by rewrite Hkeep.
Qed.

Lemma uniqueness_witness :
  let self := new_matcher pool_near 1 10 4 4 in
  let ts := [rec_of "t1" "AKR"; rec_of "t2" "AKR"; rec_of "t3" "AKR";
             rec_of "t4" "AKR"] in
  ∃ out self',
    match_all ts self = (Ok out, self') ∧
    committed ts self = [1; 0; 2]%nat ∧
    NoDup (committed ts self) ∧
    Forall2 (λ i p, decoys self !! i = Some p.2) (committed ts self) (pairs out) ∧
    (∀ i, i ∈ committed ts self →
          _used self !! i = Some false ∧ _used self' !! i = Some true) ∧
    (∀ j, j ∉ committed ts self → _used self' !! j = _used self !! j) ∧
    (∀ j, _used self !! j = Some true → _used self' !! j = Some true).
Proof.
  intros self ts. eexists _, _. split; [vm_compute; reflexivity|].
  split; [vm_compute; reflexivity|].
  eapply (uniqueness self); [apply reachable_new|vm_compute; reflexivity].
Defined.

(** ** Windows *)

Lemma Run_pairs_windows (self self' : DecoyMatcher) (ts : list FastaRecord)
    (out : Output) :
  Run self ts out self' → wf self →
  ∀ t d, (t, d) ∈ pairs out → within_windows self t d.
Proof.
  induction 1 as [self|self t ts o self' H1 _ IH
                 |self t ts b d row o self' Hb H1 Hd Hrow _ IH];
    intros Hwf t' d' Hin; simpl in Hin.
  - by apply elem_of_nil in Hin.
  - by apply IH.
  - apply elem_of_cons in Hin as [[= -> ->]|Hin].
    + apply chosen_decoy in Hb as (_ & d0 & Hd0 & HL & HK & _); [|done].
      rewrite Hd in Hd0. injection Hd0 as <-. by split.
    + by apply (IH (commit_wf _ _ Hwf)).
Qed.

(** A reachable available decoy makes the search succeed. *)
Lemma find_best_match_complete (self : DecoyMatcher) (t d : FastaRecord)
    (j : nat) :
  wf self → decoys self !! j = Some d → avail self j →
  within_reach self t d →
  find_best_match t self ≠ (Ok None, self).
Proof.
  intros Hwf Hd Ha [[HL HK] Hsum].
  destruct (cand_is_Some self Hwf j d Hd Ha) as [i Hc].
  assert (is_Some (search_from self (len (seq t)) (_kr_count (seq t))
                     (radii self) None)) as [b Hb].
  { apply (search_from_is_Some self _ _ _ _
             (dist (len (seq t)) (_kr_count (seq t)) (key_of d)) (key_of d) i);
      [|by apply keys_at_cover|done].
    unfold radii, dist, key_of. simpl. apply elem_of_range. lia. }
  rewrite find_best_match_pure, Hb by done. done.
Qed.

Lemma Run_app_inv (ts1 ts2 : list FastaRecord) (self self' : DecoyMatcher)
    (out : Output) :
  Run self (ts1 ++ ts2) out self' →
  ∃ out1 self1 out2,
    Run self ts1 out1 self1 ∧ Run self1 ts2 out2 self' ∧
    out = out_app out1 out2.
Proof.
  revert self out. induction ts1 as [|t ts1 IH]; intros self out H; simpl in H.
  - exists out_nil, self, out. split; [constructor|]. split; [done|].
    by destruct out.
  - inversion H as [|s t' ts' o s' H1 Hrest|s t' ts' b d row o s' Hb H1 Hd Hrow Hrest];
      subst.
    + destruct (IH _ _ Hrest) as (o1 & s1 & o2 & Hr1 & Hr2 & ->).
      exists (out_miss t o1), s1, o2. split; [by constructor|]. done.
    + destruct (IH _ _ Hrest) as (o1 & s1 & o2 & Hr1 & Hr2 & ->).
      exists (out_hit t d row o1), s1, o2.
      split; [by econstructor|]. done.
Qed.

(** A run changes nothing but flags. *)
Lemma Run_config (self self' : DecoyMatcher) (ts : list FastaRecord)
    (out : Output) :
  Run self ts out self' →
  decoys self' = decoys self ∧
  max_len_window self' = max_len_window self ∧
  max_kr_window self' = max_kr_window self.
Proof. induction 1; simpl in *; [done|done|]. by destruct_and!. Qed.

Lemma Run_wf (self self' : DecoyMatcher) (ts : list FastaRecord)
    (out : Output) :
  Run self ts out self' → wf self → wf self'.
Proof.
  induction 1 as [self|self t ts o self' _ _ IH
                 |self t ts b d row o self' _ _ _ _ _ IH]; intros Hwf.
  - done.
  - by apply IH.
  - by apply IH, commit_wf.
Qed.

(** Against C1.  A target within one residue and one K of the only decoy stays
    unmatched with both windows at 1: the decoy is at combined distance 2,
    beyond the last radius [max(1, 1)]. *)
Lemma window_miss :
  let self := new_matcher pool_far 1 10 1 1 in
  let t := rec_of "t" "A" in
  let d := rec_of "d1" "AK" in
  decoys self !! 0%nat = Some d ∧ avail self 0 ∧ within_windows self t d ∧
  match_all [t] self
  = (Ok {| pairs := []; rows := []; unmatched := [t] |}, self).
Proof.
  simpl. split; [done|]. split; [done|]. split; [by vm_compute|].
  vm_compute. reflexivity.
Qed.

(** C1, as the code has it.  Every pair of the output has its decoy
    within [max_len_window] of the target's length and within
    [max_kr_window] of its K+R count.  A target is matched whenever, at
    the moment it is processed, some available decoy lies within both
    windows and at combined distance at most
    [max(max_len_window, max_kr_window)]: the output then continues, after
    the output of the targets before it, with a pair for this target. *)
Theorem window_respect (self self' : DecoyMatcher) (ts : list FastaRecord)
    (out : Output) :
  reachable self → match_all ts self = (Ok out, self') →
  (∀ t d, (t, d) ∈ pairs out → within_windows self t d) ∧
  (∀ ts1 t ts2 out1 self1 j d,
     ts = ts1 ++ t :: ts2 →
     match_all ts1 self = (Ok out1, self1) →
     decoys self !! j = Some d → avail self1 j → within_reach self t d →
     ∃ d' row out2, out = out_app out1 (out_hit t d' row out2)).
Proof.
  intros Hr H. apply reachable_wf in Hr.
  apply match_all_Run in H; [|done]. split.
  - by eapply Run_pairs_windows.
  - intros ts1 t ts2 out1 self1 j d -> H1 Hd Ha Hreach.
    apply Run_app_inv in H as (o1 & s1 & o2 & Hr1 & Hr2 & ->).
    pose proof (Run_match_all _ _ _ _ Hr1) as H1'.
    rewrite H1 in H1'. injection H1' as -> ->.
    pose proof (Run_wf _ _ _ _ Hr1 Hr) as Hwf1.
    inversion Hr2 as [|s t' ts' o s' Hnone Hrest
                     |s t' ts' b d' row o s' Hb Hsome Hd' Hrow Hrest]; subst.
    + exfalso. destruct (Run_config _ _ _ _ Hr1) as (Hds & HwL & HwK).
      apply (find_best_match_complete s1 t d j); try done.
      * by rewrite Hds.
      * unfold within_reach, within_windows. by rewrite HwL, HwK.
    + by exists d', row, o.
Qed.

Lemma window_respect_witness :
  let self := new_matcher pool_near 1 10 3 1 in
  let ts := [rec_of "t1" "AKR"; rec_of "t2" "AAAKR"] in
  ∃ out self',
    match_all ts self = (Ok out, self') ∧
    (pairs out).*2 = [rec_of "d2" "ARK"; rec_of "d3" "AAAAKR"] ∧
    (∀ t d, (t, d) ∈ pairs out → within_windows self t d) ∧
    (∀ ts1 t ts2 out1 self1 j d,
       ts = ts1 ++ t :: ts2 →
       match_all ts1 self = (Ok out1, self1) →
       decoys self !! j = Some d → avail self1 j → within_reach self t d →
       ∃ d' row out2, out = out_app out1 (out_hit t d' row out2)).
Proof.
  intros self ts. eexists _, _. split; [vm_compute; reflexivity|].
  split; [done|].
  eapply (window_respect self); [apply reachable_new|vm_compute; reflexivity].
Defined.

(** ** Record names *)

Lemma split_go_nil (cur : list ascii) (s : string) :
  split_go cur s = [] ↔ cur = [] ∧ blank s = true.
Proof.
  revert cur. induction s as [|c s IH]; intros cur; simpl.
  - destruct cur; [done|]. split; [done|]. by intros [? _].
  - destruct (is_space c); simpl.
    + destruct cur as [|c' cur]; [apply IH|].
      split; [done|]. by intros [? _].
    + rewrite IH. split; [by intros [? _]|by intros [_ ?]].
Qed.

(** [name] raises exactly on the headers without a token, and then it
    raises [IndexError]. *)
Lemma name_blank (r : FastaRecord) :
  name r = Raise IndexError ↔ blank (header r) = true.
Proof.
  unfold name, split. pose proof (split_go_nil [] (header r)) as H.
  destruct (split_go [] (header r)) as [|tok toks]; simpl.
  - split; [intros _; by apply H|done].
  - split; [done|]. intros Hb. by destruct H as [_ H]; specialize (H (conj eq_refl Hb)).
Qed.

Lemma name_nonblank (r : FastaRecord) :
  blank (header r) = false → ∃ n, name r = Ok n.
Proof.
  intros Hb. destruct (name r) as [n|[]] eqn:Hn; [eauto| |].
  - apply name_blank in Hn. congruence.
  - unfold name in Hn. by destruct (split (header r)).
Qed.

Lemma make_row_blank (t d : FastaRecord) (sc : Z) :
  blank (header t) = true ∨ blank (header d) = true →
  make_row t d sc = Raise IndexError.
Proof.
  intros Hb. unfold make_row.
  destruct (name t) as [tn|e] eqn:Ht; simpl.
  - destruct Hb as [Hb|Hb].
    + apply name_blank in Hb. congruence.
    + apply name_blank in Hb. by rewrite Hb.
  - unfold name in Ht. destruct (split (header t)); simpl in Ht; congruence.
Qed.

Lemma make_row_nonblank (t d : FastaRecord) (sc : Z) :
  blank (header t) = false → blank (header d) = false →
  ∃ row, make_row t d sc = Ok row.
Proof.
  intros [tn Ht]%name_nonblank [dn Hd]%name_nonblank.
  unfold make_row. rewrite Ht, Hd. simpl. eauto.
Qed.

(** With a token in every header the loop runs to its end. *)
Lemma match_all_total (ts : list FastaRecord) (self : DecoyMatcher) :
  wf self →
  Forall (λ r, blank (header r) = false) ts →
  Forall (λ r, blank (header r) = false) (decoys self) →
  ∃ out self', match_all ts self = (Ok out, self').
Proof.
  intros Hwf Hts. revert self Hwf.
  induction Hts as [|t ts Ht _ IH]; intros self Hwf Hds.
  - by exists out_nil, self.
  - rewrite match_all_cons.
    destruct (find_best_match_cases t self Hwf) as [H1|(b & Hb & H1)];
      rewrite H1.
    + destruct (IH self Hwf Hds) as (o & s & ->). simpl. eauto.
    + unfold result_of. simpl.
      apply chosen_decoy in Hb as (_ & d & Hd & _); [|done].
      rewrite Hd.
      assert (blank (header d) = false) as Hbd.
      { rewrite Forall_forall in Hds. apply Hds.
        by eapply list_elem_of_lookup_2. }
      destruct (make_row_nonblank t d (best_score b) Ht Hbd) as [row ->].
      destruct (IH (commit self (best_i b)) (commit_wf _ _ Hwf) Hds)
        as (o & s & ->).
      simpl. eauto.
Qed.

(** C9.  [match_all] is partial in the headers.  The name of a record
    raises [IndexError] exactly when its header holds no token (the empty
    header included).  When the search pairs a target with a decoy and
    either header holds no token, [match_all] raises [IndexError] at that
    target, after the search has marked the decoy.  When every target and
    every decoy has a token in its header, [match_all] returns its three
    lists. *)
Theorem name_precondition (self : DecoyMatcher) (t : FastaRecord)
    (ts : list FastaRecord) :
  reachable self →
  (name t = Raise IndexError ↔ blank (header t) = true) ∧
  (∀ i sc x y self1 d,
     find_best_match t self = (Ok (Some (i, sc, x, y)), self1) →
     decoys self !! i = Some d →
     blank (header t) = true ∨ blank (header d) = true →
     match_all (t :: ts) self = (Raise IndexError, self1)) ∧
  (Forall (λ r, blank (header r) = false) (t :: ts) →
   Forall (λ r, blank (header r) = false) (decoys self) →
   ∃ out self', match_all (t :: ts) self = (Ok out, self')).
Proof.
  intros Hr. apply reachable_wf in Hr. split; [apply name_blank|]. split.
  - intros i sc x y self1 d Hf Hd Hb. rewrite match_all_cons, Hf.
    destruct (find_best_match_cases t self Hr) as [H1|(b & _ & H1)];
      rewrite H1 in Hf; [done|].
    injection Hf as <- _ _ _ <-. simpl. rewrite Hd.
    by rewrite make_row_blank.
  - intros Hts Hds. by apply match_all_total.
Qed.

Lemma name_precondition_witness :
  let self := new_matcher pool_near 1 10 4 4 in
  name (rec_of EmptyString "AKR") = Raise IndexError ∧
  match_all [rec_of EmptyString "AKR"; rec_of "t2" "AKR"] self
  = (Raise IndexError, commit self 1) ∧
  ∃ out self', match_all [rec_of "t1" "AKR"; rec_of "t2" "AKR"] self
               = (Ok out, self').
Proof.
  intros self.
  destruct (name_precondition self (rec_of EmptyString "AKR") [rec_of "t2" "AKR"]
              (reachable_new _ _ _ _ _)) as (Hname & Hraise & _).
  destruct (name_precondition self (rec_of "t1" "AKR") [rec_of "t2" "AKR"]
              (reachable_new _ _ _ _ _)) as (_ & _ & Htotal).
  split; [by apply Hname|]. split.
  - apply (Hraise 1%nat 0 0 0 (commit self 1) (rec_of "d2" "ARK"));
      [vm_compute; reflexivity|done|by left].
  - apply Htotal; repeat constructor.
Defined.

(** * Further properties of the code *)

(** ** What the search returns *)

(** The decoy behind a chosen candidate, seen from the target record. *)
Lemma chosen_reach (self : DecoyMatcher) (t : FastaRecord) (b : Best) :
  wf self → chosen self (len (seq t)) (_kr_count (seq t)) b →
  ∃ d, decoys self !! best_i b = Some d ∧ avail self (best_i b) ∧
       within_reach self t d ∧
       best_dL b = Z.abs (len (seq d) - len (seq t)) ∧
       best_dKR b = Z.abs (_kr_count (seq d) - _kr_count (seq t)) ∧
       best_score b = len_weight self * best_dL b + kr_weight self * best_dKR b.
Proof.
  intros Hwf (r & k & Hr & Hk & Hc & Hb).
  apply (cand_Some self Hwf) in Hc as (Ha & d & Hd & Hkey).
  apply keys_at_bound in Hk as (HwL & HwK & Hsum).
  apply elem_of_range in Hr.
  exists d. subst k. rewrite Hb. simpl in *.
  repeat split; try done. lia.
Qed.

(** The search finds nothing exactly when no available decoy is within
    reach. *)
Lemma find_best_match_None (self : DecoyMatcher) (t : FastaRecord) :
  wf self →
  find_best_match t self = (Ok None, self) ↔
  ∀ j d, decoys self !! j = Some d → avail self j → ¬ within_reach self t d.
Proof.
  intros Hwf. split.
  - intros Hnone j d Hd Ha Hreach.
    by apply (find_best_match_complete self t d j).
  - intros Hno. destruct (find_best_match_cases t self Hwf)
      as [H|(b & Hb & _)]; [done|].
    apply chosen_reach in Hb as (d & Hd & Ha & Hreach & _); [|done].
    by destruct (Hno _ _ Hd Ha).
Qed.

(** X1.  A search returns no decoy exactly when no available decoy lies
    within both windows and within combined distance
    [max(max_len_window, max_kr_window)] of the target; it then leaves the
    object as it is. *)
Theorem search_none_iff (self : DecoyMatcher) (t : FastaRecord) :
  reachable self →
  find_best_match t self = (Ok None, self) ↔
  ∀ j d, decoys self !! j = Some d → avail self j → ¬ within_reach self t d.
Proof. intros Hr. apply find_best_match_None. by apply reachable_wf. Qed.

Lemma search_none_iff_witness :
  let self := new_matcher pool_far 1 10 1 1 in
  find_best_match (rec_of "t" "A") self = (Ok None, self) ↔
  ∀ j d, decoys self !! j = Some d → avail self j →
         ¬ within_reach self (rec_of "t" "A") d.
Proof.
  intros self. apply (search_none_iff self). apply reachable_new.
Defined.

(** X2.  The tuple a successful search returns describes the decoy at the
    returned position: that decoy was available, the two deltas are its
    absolute differences in length and in K+R count to the target, each
    within its window and together within the largest radius, and the
    score is their weighted sum. *)
Theorem match_result_exact (self self' : DecoyMatcher) (t : FastaRecord)
    (i : nat) (sc dl dk : Z) :
  reachable self →
  find_best_match t self = (Ok (Some (i, sc, dl, dk)), self') →
  ∃ d, decoys self !! i = Some d ∧ avail self i ∧
       dl = Z.abs (len (seq d) - len (seq t)) ∧
       dk = Z.abs (_kr_count (seq d) - _kr_count (seq t)) ∧
       sc = len_weight self * dl + kr_weight self * dk ∧
       dl ≤ max_len_window self ∧ dk ≤ max_kr_window self ∧
       dl + dk ≤ Z.max (max_len_window self) (max_kr_window self).
Proof.
  intros Hr H. apply reachable_wf in Hr.
  destruct (find_best_match_cases t self Hr) as [H1|(b & Hb & H1)];
    rewrite H1 in H; [done|].
  injection H as <- <- <- <- _.
  apply chosen_reach in Hb as (d & Hd & Ha & [[HL HK] Hsum] & HdL & HdK & Hsc);
    [|done].
  exists d. rewrite HdL, HdK in *. done.
Qed.

Lemma match_result_exact_witness :
  let self := new_matcher pool_near 2 5 4 4 in
  ∃ d, decoys self !! 2%nat = Some d ∧ avail self 2 ∧
       3 = Z.abs (len (seq d) - len "AKR") ∧
       0 = Z.abs (_kr_count (seq d) - _kr_count "AKR") ∧
       6 = len_weight self * 3 + kr_weight self * 0 ∧
       3 ≤ max_len_window self ∧ 0 ≤ max_kr_window self ∧
       3 + 0 ≤ Z.max (max_len_window self) (max_kr_window self).
Proof.
  intros self.
  apply (match_result_exact (commit (commit self 1) 0)
           (commit (commit (commit self 1) 0) 2) (rec_of "t" "AKR")).
  - apply (reach_search (rec_of "t" "AKR") (commit self 1)
             (Ok (Some (0%nat, 0, 0, 0)))); [|vm_compute; reflexivity].
    apply (reach_search (rec_of "t" "AKR") self
             (Ok (Some (1%nat, 0, 0, 0)))); [|vm_compute; reflexivity].
    apply reachable_new.
  - vm_compute. reflexivity.
Defined.

(** The loop over every radius ends no worse than any candidate it met. *)
Lemma search_all_min (self : DecoyMatcher) (tL tkr : Z) (rs : list Z)
    (best : option Best) (r : Z) (k : Z * Z) (i : nat) :
  r ∈ rs → k ∈ keys_at self tL tkr r → cand self k = Some i →
  ∃ b, search_all self tL tkr rs best = Some b ∧
       best_score b ≤ key_score self tL tkr k.
Proof.
  unfold search_all. revert best.
  induction rs as [|r0 rs IH]; intros best Hr Hk Hc; simpl.
  - by apply elem_of_nil in Hr.
  - apply elem_of_cons in Hr as [<-|Hr]; [|by apply IH].
    destruct (foldl_upd_min self tL tkr _ best k i Hk Hc) as (b1 & -> & H1).
    assert (∃ b2, foldl (λ b r', foldl (upd self tL tkr) b (keys_at self tL tkr r'))
                    (Some b1) rs = Some b2 ∧ best_score b2 ≤ best_score b1)
      as (b2 & -> & H2).
    { clear. revert b1. induction rs as [|r' rs IH]; intros b1; simpl.
      - exists b1. split; [done|lia].
      - destruct (foldl_upd_le self tL tkr (keys_at self tL tkr r') b1)
          as (b & -> & Hb).
        destruct (IH b) as (b' & -> & Hb'). exists b'. split; [done|lia]. }
    exists b2. split; [done|lia].
Qed.

(** X3.  With positive weights the search is optimal over what it can
    reach: the score it returns is at most the weighted distance of every
    available decoy within reach of the target. *)
Theorem search_optimal (self self' : DecoyMatcher) (t : FastaRecord)
    (i : nat) (sc dl dk : Z) (j : nat) (d : FastaRecord) :
  reachable self → 0 < len_weight self → 0 < kr_weight self →
  find_best_match t self = (Ok (Some (i, sc, dl, dk)), self') →
  decoys self !! j = Some d → avail self j → within_reach self t d →
  sc ≤ len_weight self * Z.abs (len (seq d) - len (seq t))
       + kr_weight self * Z.abs (_kr_count (seq d) - _kr_count (seq t)).
Proof.
  intros Hr HL HK H Hd Ha [[HwL HwK] Hsum]. apply reachable_wf in Hr.
  rewrite find_best_match_pure, search_radii_full in H by done.
  destruct (cand_is_Some self Hr j d Hd Ha) as [i' Hc].
  destruct (search_all_min self (len (seq t)) (_kr_count (seq t)) (radii self)
              None (dist (len (seq t)) (_kr_count (seq t)) (key_of d))
              (key_of d) i') as (b & Hb & Hle); [|by apply keys_at_cover|done|].
  { unfold radii, dist, key_of. simpl. apply elem_of_range. lia. }
  rewrite Hb in H. injection H as _ <- _ _ _. exact Hle.
Qed.

Lemma search_optimal_witness :
  let self := new_matcher pool_near 1 10 4 4 in
  let t := rec_of "t" "AAKR" in
  1 ≤ len_weight self * Z.abs (len "AAAAKR" - len (seq t))
      + kr_weight self * Z.abs (_kr_count "AAAAKR" - _kr_count (seq t)).
Proof.
  intros self t.
  apply (search_optimal self (commit self 1) t 1%nat 1 1 0 2%nat
           (rec_of "d3" "AAAAKR"));
    [apply reachable_new|done|done|vm_compute; reflexivity|done|done|].
  vm_compute. repeat split; discriminate.
Defined.

(** ** Edge cases of the search *)

(** X4.  A negative window disables the search: whatever the pool, every
    call returns no decoy and leaves the object as it is. *)
Theorem negative_window_matches_nothing (self : DecoyMatcher)
    (t : FastaRecord) :
  reachable self →
  max_len_window self < 0 ∨ max_kr_window self < 0 →
  find_best_match t self = (Ok None, self).
Proof.
  intros Hr Hneg. apply find_best_match_None; [by apply reachable_wf|].
  intros j d _ _ [[HL HK] _]. lia.
Qed.

Lemma negative_window_matches_nothing_witness :
  let self := new_matcher pool_near 1 10 (-1) 5 in
  find_best_match (rec_of "t" "AKR") self = (Ok None, self).
Proof.
  intros self. apply negative_window_matches_nothing; [apply reachable_new|].
  left. done.
Defined.

(** With no decoy available every target of a run is unmatched. *)
Lemma match_all_none_available (ts : list FastaRecord) (self : DecoyMatcher) :
  wf self → (∀ j, ¬ avail self j) →
  match_all ts self = (Ok {| pairs := []; rows := []; unmatched := ts |}, self).
Proof.
  intros Hwf Hno. induction ts as [|t ts IH]; [done|].
  rewrite match_all_cons.
  assert (find_best_match t self = (Ok None, self)) as ->.
  { apply find_best_match_None; [done|]. intros j d _ Ha. by destruct (Hno j). }
  by rewrite IH.
Qed.

(** X5.  When no decoy is available (an empty pool, or every decoy
    already used) [match_all] raises nothing, whatever the headers, pairs
    nothing, returns every target as unmatched in input order, and leaves
    the object as it is. *)
Theorem exhausted_pool_all_unmatched (self : DecoyMatcher)
    (ts : list FastaRecord) :
  reachable self → (∀ j, _used self !! j ≠ Some false) →
  match_all ts self = (Ok {| pairs := []; rows := []; unmatched := ts |}, self).
Proof.
  intros Hr Hno. apply match_all_none_available; [by apply reachable_wf|done].
Qed.

Lemma exhausted_pool_all_unmatched_witness :
  let self := new_matcher [] 1 10 2000 2000 in
  let ts := [rec_of EmptyString "AKR"; rec_of "t2" "A"] in
  match_all ts self = (Ok {| pairs := []; rows := []; unmatched := ts |}, self).
Proof.
  intros self ts. apply exhausted_pool_all_unmatched; [apply reachable_new|].
  intros j. simpl. by rewrite lookup_nil.
Defined.

(** ** Runs *)

Lemma on_ok_out_app_nil (x : result Output * DecoyMatcher) :
  on_ok (out_app out_nil) x = x.
Proof. destruct x as [[[p r u]|e] s]; reflexivity. Qed.

(** X6.  Batching: a run over [ts1 ++ ts2] is the run over [ts1] followed,
    on the object it leaves, by the run over [ts2], with the three lists
    concatenated; an exception in the first part ends the run there. *)
Theorem match_all_app (ts1 ts2 : list FastaRecord) (self : DecoyMatcher) :
  match_all (ts1 ++ ts2) self =
  match match_all ts1 self with
  | (Ok o1, s1) => on_ok (out_app o1) (match_all ts2 s1)
  | (Raise e, s1) => (Raise e, s1)
  end.
Proof.
  revert self. induction ts1 as [|t ts1 IH]; intros self.
  - simpl. change (match_all [] self) with (Ok out_nil, self).
    by rewrite on_ok_out_app_nil.
  - change ((t :: ts1) ++ ts2) with (t :: (ts1 ++ ts2)).
    rewrite !match_all_cons.
    destruct (find_best_match t self) as [[[[[[i sc] x] y]|]|e] s]; [| |done].
    + destruct (decoys s !! i) as [d|]; [|done].
      destruct (make_row t d sc) as [row|e]; [|done].
      rewrite IH. destruct (match_all ts1 s) as [[o1|e] s1]; [|done].
      simpl. by destruct (match_all ts2 s1) as [[o2|e] s2].
    + rewrite IH. destruct (match_all ts1 s) as [[o1|e] s1]; [|done].
      simpl. by destruct (match_all ts2 s1) as [[o2|e] s2].
Qed.

Lemma flags_only_refl (self : DecoyMatcher) : flags_only self self.
Proof. by repeat split. Qed.

Lemma flags_only_trans (a b c : DecoyMatcher) :
  flags_only a b → flags_only b c → flags_only a c.
Proof.
  intros (H1 & H2 & H3 & H4 & H5 & H6 & H7 & H8)
         (G1 & G2 & G3 & G4 & G5 & G6 & G7 & G8).
  repeat split; try congruence. intros j Hj. by apply G8, H8.
Qed.

Lemma flags_only_mark (self self' : DecoyMatcher) (i : nat) (r : result ()) :
  mark_used i self = (r, self') → flags_only self self'.
Proof.
  unfold mark_used. destruct (decide _) as [Hi|Hi]; intros [= <- <-].
  - repeat split; simpl; [by rewrite length_insert|].
    intros j Hj. destruct (decide (i = j)) as [->|Hne].
    + by apply list_lookup_insert_eq.
    + by rewrite list_lookup_insert_ne.
  - apply flags_only_refl.
Qed.

Lemma flags_only_search (self self' : DecoyMatcher) (t : FastaRecord)
    (r : result (option MatchResult)) :
  find_best_match t self = (r, self') → flags_only self self'.
Proof.
  unfold find_best_match.
  destruct (radius_loop _ _ _ _ _) as [[b|]|e];
    [|intros [= <- <-]; apply flags_only_refl..].
  unfold mbind. destruct (mark_used (best_i b) self) as [[[]|e] s] eqn:Hm;
    intros [= <- <-]; by eapply flags_only_mark.
Qed.

(** X7.  Neither the search nor a run, whether it returns or raises, ever
    changes the pool, the weights, the windows or the bucket index, nor
    the number of flags; and no flag goes back from used to available. *)
Theorem match_all_flags_only (self self' : DecoyMatcher)
    (ts : list FastaRecord) (r : result Output) :
  match_all ts self = (r, self') → flags_only self self'.
Proof.
  revert self r. induction ts as [|t ts IH]; intros self r H.
  - injection H as <- <-. apply flags_only_refl.
  - rewrite match_all_cons in H.
    destruct (find_best_match t self) as [rs s] eqn:Hs.
    apply flags_only_search in Hs.
    eapply flags_only_trans; [exact Hs|].
    destruct rs as [[[[[i sc] x] y]|]|e].
    + destruct (decoys s !! i) as [d|];
        [|injection H as <- <-; apply flags_only_refl].
      destruct (make_row t d sc) as [row|e];
        [|injection H as <- <-; apply flags_only_refl].
      destruct (match_all ts s) as [[o|e] s'] eqn:Hrest;
        injection H as <- <-; by eapply IH.
    + destruct (match_all ts s) as [[o|e] s'] eqn:Hrest;
        injection H as <- <-; by eapply IH.
    + injection H as <- <-. apply flags_only_refl.
Qed.

Lemma match_all_flags_only_witness :
  let self := new_matcher pool_near 1 10 4 4 in
  flags_only self (commit self 1).
Proof.
  intros self.
  apply (match_all_flags_only self (commit self 1)
           [rec_of EmptyString "AKR"; rec_of "t2" "AKR"] (Raise IndexError)).
  vm_compute. reflexivity.
Defined.

Lemma n_available_commit (u : list bool) (i : nat) :
  u !! i = Some false →
  length (filter (λ b, b = false) u)
  = S (length (filter (λ b, b = false) (<[i := true]> u))).
Proof.
  revert i. induction u as [|b u IH]; intros i Hi; [done|].
  destruct i as [|i]; simpl in *.
  - injection Hi as ->. rewrite filter_cons_True by done.
    by rewrite filter_cons_False by done.
  - rewrite !filter_cons. destruct (decide (b = false)); simpl; by rewrite (IH i).
Qed.

Lemma Run_available (self self' : DecoyMatcher) (ts : list FastaRecord)
    (out : Output) :
  Run self ts out self' → wf self →
  n_available self = (n_available self' + length (pairs out))%nat.
Proof.
  induction 1 as [self|self t ts o self' H1 _ IH
                 |self t ts b d row o self' Hb H1 Hd Hrow _ IH]; intros Hwf.
  - simpl. lia.
  - by apply IH.
  - apply chosen_decoy in Hb as [Ha _]; [|done].
    specialize (IH (commit_wf _ _ Hwf)). simpl.
    unfold n_available in *. simpl in IH.
    rewrite (n_available_commit _ _ Ha). lia.
Qed.

(** X8.  Accounting: over a run that returns, the number of available
    decoys drops by exactly the number of pairs; in particular there are
    never more pairs than decoys. *)
Theorem available_accounting (self self' : DecoyMatcher)
    (ts : list FastaRecord) (out : Output) :
  reachable self → match_all ts self = (Ok out, self') →
  n_available self = (n_available self' + length (pairs out))%nat ∧
  (length (pairs out) ≤ length (decoys self))%nat.
Proof.
  intros Hr H. apply reachable_wf in Hr.
  apply match_all_Run in H; [|done].
  pose proof (Run_available _ _ _ _ H Hr) as Hn. split; [done|].
  rewrite <- (wf_used_len _ Hr).
  pose proof (length_filter (λ b, b = false) (_used self)) as Hle.
  unfold n_available in Hn. lia.
Qed.

Lemma available_accounting_witness :
  let self := new_matcher pool_near 1 10 1 1 in
  let ts := [rec_of "t1" "AKR"; rec_of "t2" "A"; rec_of "t3" "AKR";
             rec_of "t4" "AKR"] in
  ∃ out self',
    match_all ts self = (Ok out, self') ∧
    n_available self = 3%nat ∧ n_available self' = 1%nat ∧
    n_available self = (n_available self' + length (pairs out))%nat ∧
    (length (pairs out) ≤ length (decoys self))%nat.
Proof.
  intros self ts.
  destruct (match_all ts self) as [[out|e] self'] eqn:H;
    [|vm_compute in H; discriminate].
  pose proof (available_accounting self self' ts out
                (reachable_new _ _ _ _ _) H) as Hacc.
  exists out, self'. split; [done|]. split; [done|]. split; [|done].
  vm_compute in H. by injection H as <- <-.
Defined.

(** ** Residue counts *)

Lemma sum_ones_le_len (p : ascii → bool) (s : string) : sum_ones p s ≤ len s.
Proof.
  unfold len. induction s as [|c s IH]; simpl; [lia|]. destruct (p c); lia.
Qed.

(** X9.  The K+R count is the K count plus the R count; the counts are
    never negative and the K+R count never exceeds the length. *)
Theorem kr_count_bounds (s : string) :
  _kr_count s = _k_count s + _r_count s ∧
  0 ≤ _k_count s ∧ 0 ≤ _r_count s ∧ _kr_count s ≤ len s.
Proof.
  split; [apply kr_count_sum|]. split; [apply sum_ones_nonneg|].
  split; [apply sum_ones_nonneg|apply sum_ones_le_len].
Qed.

(** ** The bucket index *)

Lemma increasing_snoc (l : list nat) (i : nat) :
  increasing l → (∀ j, j ∈ l → (j < i)%nat) → increasing (l ++ [i]).
Proof.
  intros Hinc Hlt a b x y Ha Hb Hab.
  assert (a < length l)%nat as Hal.
  { apply lookup_lt_Some in Hb. rewrite length_app in Hb. simpl in Hb. lia. }
  rewrite lookup_app_l in Ha by done.
  destruct (decide (b < length l)%nat) as [Hbl|Hbl].
  - rewrite lookup_app_l in Hb by done. by eapply Hinc.
  - rewrite lookup_app_r in Hb by lia.
    destruct (b - length l)%nat; simpl in Hb; [|by rewrite lookup_nil in Hb].
    injection Hb as <-. apply Hlt. by eapply list_elem_of_lookup_2.
Qed.

Lemma increasing_app_l (l1 l2 : list nat) : increasing (l1 ++ l2) → increasing l1.
Proof.
  intros Hinc a b x y Ha Hb Hab.
  apply (Hinc a b); [by apply lookup_app_l_Some..|done].
Qed.

(** Buckets are never empty, hold positions below the next one to be
    inserted, and hold them in increasing order. *)
Lemma index_from_order (recs : list FastaRecord) (i : nat)
    (m : gmap (Z * Z) (list nat)) :
  (∀ key idxs, m !! key = Some idxs →
     idxs ≠ [] ∧ (∀ j, j ∈ idxs → (j < i)%nat) ∧ increasing idxs) →
  ∀ key idxs, index_from i recs m !! key = Some idxs →
    idxs ≠ [] ∧ (∀ j, j ∈ idxs → (j < i + length recs)%nat) ∧ increasing idxs.
Proof.
  revert i m. induction recs as [|rec recs IH]; intros i m Hm key idxs; simpl.
  - intros H. destruct (Hm _ _ H) as (H1 & H2 & H3).
    split; [done|]. split; [|done]. intros j Hj. specialize (H2 j Hj). lia.
  - intros H. apply (IH (S i)) in H.
    + destruct H as (H1 & H2 & H3). split; [done|]. split; [|done].
      intros j Hj. specialize (H2 j Hj). lia.
    + clear H key idxs. intros key idxs. unfold setdefault_append.
      destruct (decide (key_of rec = key)) as [<-|Hne].
      * rewrite lookup_insert_eq. intros [= <-].
        assert (∀ j, j ∈ default [] (m !! key_of rec) → (j < i)%nat) as Hlt.
        { destruct (m !! key_of rec) as [l|] eqn:Hl; simpl.
          - by destruct (Hm _ _ Hl) as (_ & ? & _).
          - by intros j ?%elem_of_nil. }
        split; [by destruct (default [] _)|]. split.
        -- intros j [Hj| ->%list_elem_of_singleton]%elem_of_app; [|lia].
           specialize (Hlt j Hj). lia.
        -- apply increasing_snoc; [|done].
           destruct (m !! key_of rec) as [l|] eqn:Hl; simpl.
           ++ by destruct (Hm _ _ Hl) as (_ & _ & ?).
           ++ intros a b x y Ha. by rewrite lookup_nil in Ha.
      * rewrite lookup_insert_ne by done. intros H.
        destruct (Hm _ _ H) as (H1 & H2 & H3).
        split; [done|]. split; [|done]. intros j Hj. specialize (H2 j Hj). lia.
Qed.

Lemma new_matcher_order (ds : list FastaRecord) (key : Z * Z)
    (idxs : list nat) :
  index_from 0 ds ∅ !! key = Some idxs → idxs ≠ [] ∧ increasing idxs.
Proof.
  intros H. apply index_from_order in H as (H1 & _ & H3); [done|].
  intros k l Hl. by rewrite lookup_empty in Hl.
Qed.

(** X10.  The bucket index the constructor builds is a partition of the
    pool by key: a bucket is never empty, lists its positions in
    increasing order (hence without repetition), holds exactly the
    positions of the decoys with its key, and every decoy is in the bucket
    of its own key; a key is a pair [(length, K+R count)] with
    [0 ≤ K+R count ≤ length]. *)
Theorem bucket_index_partition (ds : list FastaRecord) (lw kw mlw mkw : Z)
    (self : DecoyMatcher) :
  __init__ ds lw kw mlw mkw = Ok self →
  (∀ key idxs, _by_len_kr self !! key = Some idxs →
     idxs ≠ [] ∧ increasing idxs ∧ 0 ≤ key.2 ≤ key.1 ∧
     ∀ j, j ∈ idxs ↔ ∃ d, ds !! j = Some d ∧ key_of d = key) ∧
  (∀ j d, ds !! j = Some d →
     ∃ idxs, _by_len_kr self !! key_of d = Some idxs ∧ j ∈ idxs).
Proof.
  intros Hinit. pose proof (init_wf _ _ _ _ _ _ Hinit) as Hwf.
  injection Hinit as <-. simpl in *. split.
  - intros key idxs H. destruct (new_matcher_order _ _ _ H) as [Hne Hinc].
    assert (∀ j, j ∈ idxs ↔ ∃ d, ds !! j = Some d ∧ key_of d = key) as Hmem.
    { intros j. rewrite <- (wf_bucket _ Hwf key j). simpl. by rewrite H. }
    split; [done|]. split; [done|]. split; [|done].
    destruct idxs as [|j idxs]; [done|].
    destruct (proj1 (Hmem j)) as (d & _ & <-); [by left|].
    unfold key_of. simpl. pose proof (kr_count_sum (seq d)).
    pose proof (sum_ones_nonneg (λ c, is_K c || is_R c) (seq d)).
    pose proof (sum_ones_le_len (λ c, is_K c || is_R c) (seq d)).
    unfold _kr_count. lia.
  - intros j d Hd.
    assert (j ∈ default [] (index_from 0 ds ∅ !! key_of d)) as Hj
      by (apply (wf_bucket _ Hwf); eauto).
    destruct (index_from 0 ds ∅ !! key_of d) as [idxs|]; simpl in Hj.
    + eauto.
    + by apply elem_of_nil in Hj.
Qed.

Lemma bucket_index_partition_witness :
  let self := new_matcher pool_near 1 10 4 4 in
  _by_len_kr self !! (3, 2) = Some [0; 1]%nat ∧
  (∀ key idxs, _by_len_kr self !! key = Some idxs →
     idxs ≠ [] ∧ increasing idxs ∧ 0 ≤ key.2 ≤ key.1 ∧
     ∀ j, j ∈ idxs ↔ ∃ d, pool_near !! j = Some d ∧ key_of d = key) ∧
  (∀ j d, pool_near !! j = Some d →
     ∃ idxs, _by_len_kr self !! key_of d = Some idxs ∧ j ∈ idxs).
Proof.
  intros self. split; [vm_compute; reflexivity|].
  apply (bucket_index_partition pool_near 1 10 4 4 self). reflexivity.
Defined.

(** Searches leave the index the constructor built. *)
Lemma reachable_index (self : DecoyMatcher) :
  reachable self → _by_len_kr self = index_from 0 (decoys self) ∅.
Proof.
  induction 1 as [ds lw kw mlw mkw self H|t self r self' _ IH H].
  - by injection H as <-.
  - apply flags_only_search in H as (Hd & _ & _ & _ & _ & Hi & _).
    by rewrite Hi, Hd.
Qed.

(** In an increasing list the scan from the end selects the largest
    position that passes. *)
Lemma head_filter_reverse_max (P : nat → Prop) `{!∀ j, Decision (P j)}
    (l : list nat) (i : nat) :
  increasing l → head (filter P (reverse l)) = Some i →
  ∀ j, j ∈ l → P j → (j ≤ i)%nat.
Proof.
  induction l as [|x l IH] using rev_ind; intros Hinc Hhead j Hj HP.
  - by apply elem_of_nil in Hj.
  - rewrite reverse_snoc in Hhead.
    assert (∀ y, y ∈ l → (y < x)%nat) as Hlt.
    { intros y [a Ha]%list_elem_of_lookup_1.
      apply (Hinc a (length l)); [by apply lookup_app_l_Some| |].
      - by rewrite lookup_app_r, Nat.sub_diag by lia.
      - by eapply lookup_lt_Some. }
    destruct (decide (P x)) as [HPx|HPx].
    + rewrite filter_cons_True in Hhead by done. injection Hhead as <-.
      apply elem_of_app in Hj as [Hj| ->%list_elem_of_singleton]; [|lia].
      specialize (Hlt j Hj). lia.
    + rewrite filter_cons_False in Hhead by done.
      apply elem_of_app in Hj as [Hj| ->%list_elem_of_singleton]; [|done].
      apply IH; try done. by eapply increasing_app_l.
Qed.

(** X11.  Among the available decoys that share the key of the decoy it
    returns, the search returns the one at the highest position, the last
    one inserted. *)
Theorem search_takes_last_inserted (self self' : DecoyMatcher)
    (t : FastaRecord) (i : nat) (sc dl dk : Z) (di dj : FastaRecord)
    (j : nat) :
  reachable self →
  find_best_match t self = (Ok (Some (i, sc, dl, dk)), self') →
  decoys self !! i = Some di → decoys self !! j = Some dj →
  key_of dj = key_of di → avail self j →
  (j ≤ i)%nat.
Proof.
  intros Hr H Hdi Hdj Hkey Ha.
  pose proof (reachable_index _ Hr) as Hidx. apply reachable_wf in Hr.
  destruct (find_best_match_cases t self Hr) as [H1|(b & Hb & H1)];
    rewrite H1 in H; [done|].
  injection H as <- _ _ _ _.
  destruct Hb as (r & k & _ & _ & Hc & _).
  destruct (cand_Some self Hr _ _ Hc) as (_ & d & Hd & Hk).
  rewrite Hdi in Hd. injection Hd as <-.
  unfold cand in Hc.
  apply (head_filter_reverse_max (avail self)
           (default [] (_by_len_kr self !! k))); try done.
  - destruct (_by_len_kr self !! k) as [idxs|] eqn:Hl; simpl.
    + rewrite Hidx in Hl. by destruct (new_matcher_order _ _ _ Hl).
    + intros p q x y Hx. by rewrite lookup_nil in Hx.
  - apply (wf_bucket _ Hr). exists dj. split; [done|congruence].
Qed.

Lemma search_takes_last_inserted_witness :
  let self := new_matcher pool_near 1 10 4 4 in
  (0 ≤ 1)%nat.
Proof.
  intros self.
  apply (search_takes_last_inserted self (commit self 1) (rec_of "t" "AKR")
           1%nat 0 0 0 (rec_of "d2" "ARK") (rec_of "d1 first" "KRA") 0%nat);
    [apply reachable_new|vm_compute; reflexivity|done..].
Defined.

(** ** The keys of a split *)

Ltac pick_disjunct :=
  first [ by f_equal; lia | left; by f_equal; lia | right; pick_disjunct ].

Ltac pick_key x L y kr :=
  destruct (Z.abs_spec (x - L)), (Z.abs_spec (y - kr)); pick_disjunct.

Ltac distinct_keys :=
  repeat (apply NoDup_cons; split;
          [rewrite ?elem_of_cons, elem_of_nil;
           intros Hk; destruct_or!; try done; injection Hk; lia|]);
  apply NoDup_nil_2.

(** X12.  [_iter_search_shell] yields no key for a negative delta.  For
    deltas that are not negative it yields pairwise distinct keys, 1 when
    both deltas are zero, 2 when one is, 8 otherwise: the keys at distance
    exactly [dL] in length and [dKR] in K+R count and, when neither delta
    is zero, also those at distance [dL] or [dKR] along one axis only. *)
Theorem shell_keys (L kr dL dKR : Z) :
  (dL < 0 ∨ dKR < 0 → _iter_search_shell L kr dL dKR = []) ∧
  (0 ≤ dL → 0 ≤ dKR →
   NoDup (_iter_search_shell L kr dL dKR) ∧
   length (_iter_search_shell L kr dL dKR)
   = (if (dL =? 0) && (dKR =? 0) then 1%nat
      else if (dL =? 0) || (dKR =? 0) then 2%nat else 8%nat) ∧
   ∀ k, k ∈ _iter_search_shell L kr dL dKR ↔
        (Z.abs (k.1 - L) = dL ∧ Z.abs (k.2 - kr) = dKR) ∨
        (0 < dL ∧ 0 < dKR ∧
         ((Z.abs (k.1 - L) = dL ∧ k.2 = kr) ∨
          (k.1 = L ∧ Z.abs (k.2 - kr) = dKR)))).
Proof.
  unfold _iter_search_shell. split.
  - intros Hneg.
    destruct (Z.eqb_spec dL 0), (Z.eqb_spec dKR 0); simpl; [lia|..];
      destruct (Z.ltb_spec 0 dL), (Z.ltb_spec 0 dKR); simpl; done || lia.
  - intros HL HK.
    destruct (Z.eqb_spec dL 0) as [->|HL0], (Z.eqb_spec dKR 0) as [->|HK0];
      simpl.
    + split; [distinct_keys|]. split; [done|]. intros [x y]. simpl.
      rewrite list_elem_of_singleton. split.
      * intros [= -> ->]. left. lia.
      * intros [[? ?]|(? & _)]; [f_equal; lia|lia].
    + destruct (Z.ltb_spec 0 dKR); [|lia]. simpl.
      split; [distinct_keys|]. split; [done|]. intros [x y]. simpl.
      rewrite !elem_of_cons, elem_of_nil. split.
      * intros Hk. destruct_or!; try done; simplify_eq; left; lia.
      * intros [[? ?]|(? & _)]; [|lia]. pick_key x L y kr.
    + destruct (Z.ltb_spec 0 dL); [|lia]. simpl.
      split; [distinct_keys|]. split; [done|]. intros [x y]. simpl.
      rewrite !elem_of_cons, elem_of_nil. split.
      * intros Hk. destruct_or!; try done; simplify_eq; left; lia.
      * intros [[? ?]|(_ & ? & _)]; [|lia]. pick_key x L y kr.
    + destruct (Z.ltb_spec 0 dL); [|lia]. destruct (Z.ltb_spec 0 dKR); [|lia].
      simpl. split; [distinct_keys|]. split; [done|]. intros [x y]. simpl.
      rewrite !elem_of_cons, elem_of_nil. split.
      * intros Hk. destruct_or!; try done; simplify_eq;
          [left; lia..|right|right|right|right]; (split; [done|]);
          (split; [done|]); [left|left|right|right]; lia.
      * intros [[? ?]|(_ & _ & [[? ?]|[? ?]])]; pick_key x L y kr.
Qed.

Lemma shell_keys_witness :
  _iter_search_shell 10 2 (-1) 3 = [] ∧
  NoDup (_iter_search_shell 10 2 1 3) ∧
  length (_iter_search_shell 10 2 1 3) = 8%nat ∧
  (9, 2) ∈ _iter_search_shell 10 2 1 3.
Proof.
  destruct (shell_keys 10 2 (-1) 3) as [Hneg _].
  destruct (shell_keys 10 2 1 3) as [_ Hpos].
  destruct Hpos as (Hnd & Hlen & Hmem); [lia..|].
  split; [apply Hneg; lia|]. split; [done|]. split; [done|].
  apply Hmem. simpl. right. split; [lia|]. split; [lia|]. left. lia.
Defined.

(** ** The unused helper *)

Lemma pop_loop_scan (l : list nat) (self : DecoyMatcher) :
  (pop_loop l self).1.1 = first_unused (_used self) l.
Proof.
  induction l as [|i l IH]; simpl; [done|].
  by destruct (_used self !! i) as [[]|].
Qed.

(** X13.  [_pop_first_unused] selects the position the scan of
    [find_best_match] selects on the same list, and raises where that scan
    raises. *)
Theorem pop_agrees_with_scan (idxs : list nat) (self : DecoyMatcher) :
  (_pop_first_unused idxs self).1.1
  = first_unused (_used self) (reverse idxs).
Proof. apply pop_loop_scan. Qed.

Lemma pop_loop_effect (l : list nat) (self : DecoyMatcher) :
  match pop_loop l self with
  | (Ok (Some i), rest, self') =>
      ∃ popped, l = popped ++ i :: reverse rest ∧
                Forall (λ j, _used self !! j = Some true) popped ∧
                _used self !! i = Some false ∧
                self' = set_used self (<[i := true]> (_used self))
  | (Ok None, rest, self') =>
      rest = [] ∧ self' = self ∧ Forall (λ j, _used self !! j = Some true) l
  | (Raise e, rest, self') =>
      e = IndexError ∧ self' = self ∧
      ∃ popped j, l = popped ++ j :: reverse rest ∧
                  Forall (λ j, _used self !! j = Some true) popped ∧
                  _used self !! j = None
  end.
Proof.
  induction l as [|i l IH]; simpl; [done|].
  destruct (_used self !! i) as [[]|] eqn:Hi.
  - destruct (pop_loop l self) as [[[[i'|]|e] rest] self'].
    + destruct IH as (popped & -> & Hp & Hi' & ->).
      exists (i :: popped). split; [done|]. split; [by constructor|done].
    + destruct IH as (-> & -> & Hp). split; [done|]. split; [done|].
      by constructor.
    + destruct IH as (-> & -> & popped & j & -> & Hp & Hj).
      split; [done|]. split; [done|]. exists (i :: popped), j.
      split; [done|]. split; [by constructor|done].
  - exists []. by rewrite reverse_involutive.
  - split; [done|]. split; [done|]. exists [], i. by rewrite reverse_involutive.
Qed.

(** X14.  What [_pop_first_unused] does to its list and to the flags.
    When it returns a position, that position was available and is now
    used, the list has lost it and every entry after it, and the entries
    after it were all used.  When it returns [None] every entry was used,
    the list is empty and the flags are as before.  It raises only
    [IndexError], on an entry beyond the flags, with the list cut just
    before that entry and the flags as before. *)
Theorem pop_first_unused_effect (idxs : list nat) (self : DecoyMatcher) :
  match _pop_first_unused idxs self with
  | (Ok (Some i), rest, self') =>
      ∃ popped, idxs = rest ++ i :: popped ∧
                Forall (λ j, _used self !! j = Some true) popped ∧
                _used self !! i = Some false ∧
                self' = set_used self (<[i := true]> (_used self))
  | (Ok None, rest, self') =>
      rest = [] ∧ self' = self ∧
      Forall (λ j, _used self !! j = Some true) idxs
  | (Raise e, rest, self') =>
      e = IndexError ∧ self' = self ∧
      ∃ j popped, idxs = rest ++ j :: popped ∧
                  Forall (λ j, _used self !! j = Some true) popped ∧
                  _used self !! j = None
  end.
Proof.
  unfold _pop_first_unused.
  pose proof (pop_loop_effect (reverse idxs) self) as H.
  destruct (pop_loop (reverse idxs) self) as [[[[i|]|e] rest] self'].
  - destruct H as (popped & Hl & Hp & Hi & ->).
    exists (reverse popped). split; [|split; [|done]].
    + apply (inj reverse). rewrite Hl, reverse_app, reverse_cons.
      by rewrite reverse_involutive, <- app_assoc.
    + by apply Forall_reverse.
  - destruct H as (-> & -> & Hp). split; [done|]. split; [done|].
    by apply Forall_reverse in Hp; rewrite reverse_involutive in Hp.
  - destruct H as (-> & -> & popped & j & Hl & Hp & Hj).
    split; [done|]. split; [done|]. exists j, (reverse popped).
    split; [|split; [|done]].
    + apply (inj reverse). rewrite Hl, reverse_app, reverse_cons.
      by rewrite reverse_involutive, <- app_assoc.
    + by apply Forall_reverse.
Qed.

(** ** The name of a record *)

Lemma string_of_snoc (l : list ascii) (c : ascii) (s : string) :
  string_of_list_ascii (l ++ [c]) +:+ s = string_of_list_ascii l +:+ String c s.
Proof.
  induction l as [|a l IH]; [done|].
  change (String a (string_of_list_ascii (l ++ [c]) +:+ s)
          = String a (string_of_list_ascii l +:+ String c s)).
  by rewrite IH.
Qed.

Lemma str_app_nil_r (s : string) : s +:+ EmptyString = s.
Proof.
  induction s as [|c s IH]; [done|].
  change (String c (s +:+ EmptyString) = String c s). by rewrite IH.
Qed.

(** A token already begun ends at the next separator. *)
Lemma split_go_token (cur : list ascii) (s : string) (tok : string)
    (toks : list string) :
  cur ≠ [] → split_go cur s = tok :: toks →
  ∃ pre rest, s = pre +:+ rest ∧ solid pre = true ∧ at_token_end rest ∧
              tok = string_of_list_ascii (rev cur) +:+ pre.
Proof.
  revert cur. induction s as [|c s IH]; intros cur Hcur; simpl.
  - destruct cur as [|a cur]; [done|]. intros [= <- _].
    exists EmptyString, EmptyString.
    split; [reflexivity|]. split; [reflexivity|]. split; [exact I|].
    by rewrite str_app_nil_r.
  - destruct (is_space c) eqn:Hc.
    + destruct cur as [|a cur]; [done|]. intros [= <- _].
      exists EmptyString, (String c s).
      split; [reflexivity|]. split; [reflexivity|]. split; [exact Hc|].
      by rewrite str_app_nil_r.
    + intros H. apply IH in H as (pre & rest & -> & Hpre & Hrest & ->); [|done].
      exists (String c pre), rest.
      split; [reflexivity|]. split; [by simpl; rewrite Hc|]. split; [done|].
      simpl. apply string_of_snoc.
Qed.

Lemma split_go_first (s : string) (tok : string) (toks : list string) :
  split_go [] s = tok :: toks →
  ∃ ws rest, s = ws +:+ tok +:+ rest ∧ blank ws = true ∧
             solid tok = true ∧ tok ≠ EmptyString ∧ at_token_end rest.
Proof.
  induction s as [|c s IH]; simpl; [done|].
  destruct (is_space c) eqn:Hc.
  - intros H. apply IH in H as (ws & rest & -> & Hws & Htok & Hne & Hrest).
    exists (String c ws), rest.
    split; [reflexivity|]. split; [by simpl; rewrite Hc|]. done.
  - intros H. apply split_go_token in H
      as (pre & rest & -> & Hpre & Hrest & ->); [|done].
    exists EmptyString, rest.
    split; [reflexivity|]. split; [reflexivity|].
    split; [by simpl; rewrite Hc|]. done.
Qed.

(** X15.  When [name] returns, it returns the first token of the header:
    a non-empty string without separators that the header holds after
    separators only, and that ends where the header ends or where its
    next separator stands. *)
Theorem name_first_token (r : FastaRecord) (n : string) :
  name r = Ok n →
  ∃ ws rest, header r = ws +:+ n +:+ rest ∧ blank ws = true ∧
             solid n = true ∧ n ≠ EmptyString ∧ at_token_end rest.
Proof.
  unfold name, split. destruct (split_go [] (header r)) as [|tok toks] eqn:H;
    simpl; [done|].
  intros [= <-]. by eapply split_go_first.
Qed.

Lemma name_first_token_witness :
  let r := rec_of "  sp|P1|X  OS=E. coli" "AKR" in
  name r = Ok "sp|P1|X" ∧
  ∃ ws rest, header r = ws +:+ "sp|P1|X" +:+ rest ∧ blank ws = true ∧
             solid "sp|P1|X" = true ∧ "sp|P1|X" ≠ EmptyString ∧
             at_token_end rest.
Proof.
  intros r. split; [reflexivity|].
  apply (name_first_token r). reflexivity.
Defined.

(** ** Reading and writing FASTA text *)

Lemma str_app_assoc (a b c : string) : (a +:+ b) +:+ c = a +:+ (b +:+ c).
Proof.
  induction a as [|x a IH]; [done|].
  change (String x ((a +:+ b) +:+ c) = String x (a +:+ (b +:+ c))).
  by rewrite IH.
Qed.

Lemma str_app_cons (x : ascii) (a b : string) :
  String x a +:+ b = String x (a +:+ b).
Proof. done. Qed.

Lemma length_lstrip (s : string) : (String.length (lstrip s) ≤ String.length s)%nat.
Proof. induction s as [|c s IH]; simpl; [lia|]. destruct (is_space c); simpl; lia. Qed.

Lemma length_rstrip (s : string) : (String.length (rstrip s) ≤ String.length s)%nat.
Proof.
  induction s as [|c s IH]; simpl; [lia|].
  destruct (rstrip s); [destruct (is_space c)|]; simpl in *; lia.
Qed.

Lemma rstrip_same_length (s : string) :
  String.length (rstrip s) = String.length s → rstrip s = s.
Proof.
  induction s as [|c s IH]; simpl; [done|].
  pose proof (length_rstrip s) as Hle.
  destruct (rstrip s) as [|a r] eqn:Hr.
  - destruct (is_space c); simpl; [lia|]. intros H.
    destruct s; [done|simpl in *; lia].
  - simpl. intros H. f_equal. apply IH. simpl. lia.
Qed.

(** A string that [strip] leaves as it is starts with no separator and
    [rstrip] leaves it as it is. *)
Lemma strip_fixed (s : string) :
  strip s = s → lstrip s = s ∧ rstrip s = s.
Proof.
  unfold strip. intros H.
  pose proof (length_lstrip s) as H1.
  pose proof (length_rstrip (lstrip s)) as H2. rewrite H in H2.
  assert (lstrip s = s) as Hl.
  { destruct s as [|c s']; [done|]. simpl in *.
    destruct (is_space c); [|done].
    pose proof (length_lstrip s'). lia. }
  split; [done|]. by rewrite Hl in H.
Qed.

Lemma rstrip_snoc_space (s : string) (c : ascii) :
  is_space c = true → rstrip (s +:+ String c EmptyString) = rstrip s.
Proof.
  intros Hc. induction s as [|a s IH]; [simpl; by rewrite Hc|].
  change (rstrip (String a (s +:+ String c EmptyString)) = rstrip (String a s)).
  simpl. by rewrite IH.
Qed.

(** Stripping the line written for a fixed string gives the string back. *)
Lemma strip_line (s : string) :
  strip s = s → strip (s +:+ String "010" EmptyString) = s.
Proof.
  intros [Hl Hr]%strip_fixed. unfold strip.
  destruct s as [|a s']; [done|].
  assert (is_space a = false) as Ha.
  { destruct (is_space a) eqn:Ha; [|done]. cbn [lstrip] in Hl.
    rewrite Ha in Hl. pose proof (length_lstrip s') as Hlen.
    rewrite Hl in Hlen. simpl in Hlen. lia. }
  change (String a s' +:+ String "010" EmptyString)
    with (String a (s' +:+ String "010" EmptyString)).
  cbn [lstrip]. rewrite Ha.
  change (String a (s' +:+ String "010" EmptyString))
    with (String a s' +:+ String "010" EmptyString).
  rewrite rstrip_snoc_space by done. exact Hr.
Qed.

Lemma file_lines_line (s rest : string) :
  no_line_end s = true →
  file_lines (s +:+ String "010" rest)
  = (s +:+ String "010" EmptyString) :: file_lines rest.
Proof.
  induction s as [|c s IH]; intros Hs; [done|].
  simpl in Hs. apply andb_prop in Hs as [Hc Hs].
  apply andb_prop in Hc as [Hn Hr].
  rewrite !str_app_cons. simpl.
  destruct (Ascii.eqb c "010"); [done|]. destruct (Ascii.eqb c "013"); [done|].
  by rewrite IH.
Qed.

Lemma close_record_clean (r : FastaRecord) :
  clean r → close_record (">" +:+ header r) (chunks_of r) = Some r.
Proof.
  intros (Hh & _ & _ & _ & Hsp & Htab & _ & Hup).
  unfold close_record.
  assert (join (chunks_of r) = seq r) as ->.
  { unfold chunks_of. destruct (seq r) as [|c s]; [done|].
    simpl. by rewrite str_app_nil_r. }
  rewrite Hsp, Htab, Hup.
  change (tail1 (">" +:+ header r)) with (header r). rewrite Hh. by destruct r.
Qed.

Lemma record_text_lines (r : FastaRecord) (rest : string) :
  record_text r +:+ rest
  = String ">" (header r) +:+ String "010" (seq r +:+ String "010" rest).
Proof.
  unfold record_text.
  generalize (header r) (seq r). intros h s.
  rewrite (str_app_assoc (">" +:+ h +:+ String "010" EmptyString)).
  change (">" +:+ h +:+ String "010" EmptyString)
    with (String ">" h +:+ String "010" EmptyString).
  rewrite (str_app_assoc (String ">" h)).
  rewrite (str_app_assoc s). done.
Qed.

(** The two lines of a record, read in any state of the loop: the header
    line closes the record in progress, the sequence line becomes the one
    chunk of the new record. *)
Lemma read_record_lines (r : FastaRecord) (rest : string)
    (records : list FastaRecord) (hdr : option string) (chunks : list string) :
  clean r →
  read_fasta_loop (file_lines (record_text r +:+ rest)) records hdr chunks
  = match hdr with
    | Some h =>
        match close_record h chunks with
        | Some r0 =>
            read_fasta_loop (file_lines rest) (records ++ [r0])
              (Some (">" +:+ header r)) (chunks_of r)
        | None => None
        end
    | None =>
        read_fasta_loop (file_lines rest) records
          (Some (">" +:+ header r)) (chunks_of r)
    end.
Proof.
  intros (Hh & Hhn & Hs & Hsn & _ & _ & Hgt & _).
  rewrite record_text_lines.
  rewrite (file_lines_line (String ">" (header r))) by done.
  rewrite file_lines_line by done.
  cbn [read_fasta_loop].
  assert (strip (String ">" (header r) +:+ String "010" EmptyString)
          = String ">" (header r)) as ->.
  { apply strip_line. unfold strip. simpl.
    apply strip_fixed in Hh as [_ Hr]. rewrite Hr.
    by destruct (header r). }
  rewrite (strip_line (seq r)) by done.
  assert (∀ recs h,
    match seq r with
    | EmptyString => read_fasta_loop (file_lines rest) recs h []
    | String _ _ =>
        if startswith_gt (seq r) then
          match h with
          | Some h0 =>
              match close_record h0 [] with
              | Some r0 =>
                  read_fasta_loop (file_lines rest) (recs ++ [r0]) (Some (seq r)) []
              | None => None
              end
          | None => read_fasta_loop (file_lines rest) recs (Some (seq r)) []
          end
        else read_fasta_loop (file_lines rest) recs h ([] ++ [seq r])
    end = read_fasta_loop (file_lines rest) recs h (chunks_of r)) as Hline.
  { intros recs h. unfold chunks_of. rewrite Hgt. by destruct (seq r). }
  simpl startswith_gt. cbv iota.
  destruct hdr as [h|].
  - destruct (close_record h chunks) as [r0|]; [|done]. apply Hline.
  - apply Hline.
Qed.

Lemma read_records (rs : list FastaRecord) (records : list FastaRecord)
    (r0 : FastaRecord) :
  Forall clean rs → clean r0 →
  read_fasta_loop (file_lines (join (record_text <$> rs))) records
    (Some (">" +:+ header r0)) (chunks_of r0)
  = Some (records ++ r0 :: rs).
Proof.
  intros Hrs. revert records r0.
  induction Hrs as [|r rs Hr _ IH]; intros records r0 Hr0.
  - simpl. by rewrite close_record_clean.
  - rewrite fmap_cons.
    change (join (record_text r :: (record_text <$> rs)))
      with (record_text r +:+ join (record_text <$> rs)).
    rewrite read_record_lines by done. rewrite close_record_clean by done.
    rewrite IH by done. by rewrite <- app_assoc.
Qed.

Lemma write_fasta_pairs_records (pairs : list (FastaRecord * FastaRecord)) :
  write_fasta_pairs pairs = join (record_text <$> interleave pairs).
Proof.
  unfold interleave. induction pairs as [|[t d] pairs IH]; simpl; [done|].
  rewrite IH. unfold pair_text, record_text. simpl.
  by rewrite !str_app_assoc.
Qed.

(** X16.  Round trip: the text [write_fasta_pairs] writes for pairs of
    clean records is read by [read_fasta] as those records, target before
    decoy, in the order of the pairs. *)
Theorem fasta_round_trip (pairs : list (FastaRecord * FastaRecord)) :
  Forall clean (interleave pairs) →
  read_fasta (write_fasta_pairs pairs) = Some (interleave pairs).
Proof.
  intros Hc. rewrite write_fasta_pairs_records. unfold read_fasta.
  destruct (interleave pairs) as [|r rs]; [done|].
  apply Forall_cons in Hc as [Hr Hrs]. rewrite fmap_cons.
  change (join (record_text r :: (record_text <$> rs)))
    with (record_text r +:+ join (record_text <$> rs)).
  rewrite read_record_lines by done. by rewrite read_records.
Qed.

Lemma fasta_round_trip_witness :
  let pairs := [(rec_of "t1 first target" "AKRLM", rec_of "d1" "KRA");
                (rec_of EmptyString EmptyString, rec_of "d2" "ARK")] in
  read_fasta (write_fasta_pairs pairs) = Some (interleave pairs).
Proof.
  intros pairs. apply fasta_round_trip.
  repeat constructor.
Defined.

(** *** What [read_fasta] returns *)

Ltac all_chars c := destruct c as [[] [] [] [] [] [] [] []]; vm_compute.

Lemma upper_char_ok_all (c : ascii) : upper_char_ok c = true.
Proof. all_chars c; reflexivity. Qed.

Lemma upper_char_facts (c : ascii) (w : string) :
  upper_char c = Some w →
  w ≠ EmptyString ∧
  (plain c = true → allc plain w = true) ∧
  (is_space c = false → solid w = true) ∧
  (Ascii.eqb c ">" = false → startswith_gt w = false) ∧
  upper w = Some w.
Proof.
  intros Hw. pose proof (upper_char_ok_all c) as Hok.
  unfold upper_char_ok in Hok. rewrite Hw in Hok.
  apply andb_prop in Hok as [Hok H5]. apply andb_prop in Hok as [Hok H4].
  apply andb_prop in Hok as [Hok H3]. apply andb_prop in Hok as [H1 H2].
  split; [|split; [|split; [|split]]].
  - intros ->. done.
  - intros Hp. by rewrite Hp in H2.
  - intros Hs. by rewrite Hs in H3.
  - intros Hg. rewrite Hg in H4. simpl in H4. by destruct (startswith_gt w).
  - destruct (upper w) as [w'|]; [|done]. by apply String.eqb_eq in H5 as ->.
Qed.

Lemma upper_char_nonempty (c : ascii) : upper_char c ≠ Some EmptyString.
Proof. intros H. by destruct (upper_char_facts c _ H) as [? _]. Qed.

Lemma upper_char_plain (c : ascii) (w : string) :
  plain c = true → upper_char c = Some w → allc plain w = true.
Proof. intros Hp Hw. destruct (upper_char_facts c w Hw) as (_ & H & _). auto. Qed.

Lemma upper_char_solid (c : ascii) (w : string) :
  is_space c = false → upper_char c = Some w → solid w = true.
Proof.
  intros Hp Hw. destruct (upper_char_facts c w Hw) as (_ & _ & H & _). auto.
Qed.

Lemma upper_char_gt (c : ascii) (w : string) :
  Ascii.eqb c ">" = false → upper_char c = Some w → startswith_gt w = false.
Proof.
  intros Hp Hw. destruct (upper_char_facts c w Hw) as (_ & _ & _ & H & _). auto.
Qed.

Lemma upper_char_fixed (c : ascii) (w : string) :
  upper_char c = Some w → upper w = Some w.
Proof.
  intros Hw. by destruct (upper_char_facts c w Hw) as (_ & _ & _ & _ & H).
Qed.

Lemma allc_app (p : ascii → bool) (a b : string) :
  allc p (a +:+ b) = allc p a && allc p b.
Proof.
  induction a as [|c a IH]; [done|].
  change (allc p (String c (a +:+ b)) = allc p (String c a) && allc p b).
  simpl. by rewrite IH, andb_assoc.
Qed.

Lemma upper_app (a b : string) :
  upper (a +:+ b)
  = match upper a, upper b with
    | Some x, Some y => Some (x +:+ y)
    | _, _ => None
    end.
Proof.
  induction a as [|c a IH].
  - change (EmptyString +:+ b) with b. simpl. by destruct (upper b).
  - change (upper (String c (a +:+ b))
            = match upper (String c a), upper b with
              | Some x, Some y => Some (x +:+ y)
              | _, _ => None
              end).
    simpl. rewrite IH.
    destruct (upper_char c) as [w|]; [|done].
    destruct (upper a) as [x|]; [|done].
    destruct (upper b) as [y|]; [|done].
    by rewrite str_app_assoc.
Qed.

Lemma upper_plain (s u : string) :
  allc plain s = true → upper s = Some u → allc plain u = true.
Proof.
  revert u. induction s as [|c s IH]; intros u Hs; simpl.
  - by intros [= <-].
  - simpl in Hs. apply andb_prop in Hs as [Hc Hs].
    destruct (upper_char c) as [w|] eqn:Hw; [|done].
    destruct (upper s) as [r|]; [|done]. intros [= <-].
    rewrite allc_app, (upper_char_plain c w), (IH r) by done. done.
Qed.

Lemma upper_fixed (s u : string) : upper s = Some u → upper u = Some u.
Proof.
  revert u. induction s as [|c s IH]; intros u; simpl.
  - by intros [= <-].
  - destruct (upper_char c) as [w|] eqn:Hw; [|done].
    destruct (upper s) as [r|]; [|done]. intros [= <-].
    by rewrite upper_app, (upper_char_fixed c w), (IH r).
Qed.

Lemma upper_nonempty (s u : string) :
  s ≠ EmptyString → upper s = Some u → u ≠ EmptyString.
Proof.
  destruct s as [|c s]; [done|]. intros _. simpl.
  destruct (upper_char c) as [w|] eqn:Hw; [|done].
  destruct (upper s) as [r|]; [|done]. intros [= <-].
  destruct w; [by destruct (upper_char_nonempty c)|done].
Qed.

Lemma last_ok_app (a b : string) :
  b ≠ EmptyString → last_ok (a +:+ b) = last_ok b.
Proof.
  intros Hb. induction a as [|c a IH]; [done|].
  change (last_ok (String c (a +:+ b)) = last_ok b).
  simpl. destruct (a +:+ b) eqn:Hab; [|done].
  destruct a; [by destruct b|done].
Qed.

Lemma solid_last_ok (w : string) : solid w = true → last_ok w = true.
Proof.
  induction w as [|c w IH]; [done|]. simpl.
  intros [Hc Hw]%andb_prop. destruct w; [done|by apply IH].
Qed.

Lemma upper_last_ok (s u : string) :
  last_ok s = true → upper s = Some u → last_ok u = true.
Proof.
  revert u. induction s as [|c s IH]; intros u Hs.
  - by intros [= <-].
  - simpl. destruct (upper_char c) as [w|] eqn:Hw; [|done].
    destruct (upper s) as [r|] eqn:Hr; [|done]. intros [= <-].
    destruct s as [|c' s'].
    + injection Hr as <-. rewrite str_app_nil_r.
      apply solid_last_ok, (upper_char_solid c); [|done].
      simpl in Hs. by destruct (is_space c).
    + rewrite last_ok_app; [by apply IH|].
      by apply (upper_nonempty (String c' s')).
Qed.

Lemma rstrip_last_ok (s : string) : rstrip s = s ↔ last_ok s = true.
Proof.
  induction s as [|c s IH]; [done|]. simpl.
  destruct s as [|c' s'].
  - simpl. destruct (is_space c); split; done.
  - destruct (rstrip (String c' s')) as [|a r] eqn:Hr.
    + split.
      * destruct (is_space c); intros [=].
      * intros Hl. apply IH in Hl. done.
    + rewrite <- IH. split; intros H; by simplify_eq.
Qed.

Lemma lstrip_first (s : string) :
  lstrip s = s ↔
  match s with
  | EmptyString => True
  | String c _ => is_space c = false
  end.
Proof.
  destruct s as [|c s]; [done|]. simpl. destruct (is_space c); [|done].
  split; [|done]. intros H. pose proof (length_lstrip s) as Hl.
  rewrite H in Hl. simpl in Hl. lia.
Qed.

Lemma strip_from_ends (s : string) :
  lstrip s = s → last_ok s = true → strip s = s.
Proof.
  intros Hl Hr. unfold strip. rewrite Hl. by apply rstrip_last_ok.
Qed.

Lemma no_line_end_allc (s : string) :
  no_line_end s
  = allc (λ c, negb (Ascii.eqb c "010") && negb (Ascii.eqb c "013")) s.
Proof. induction s as [|c s IH]; [done|]. simpl. by rewrite IH. Qed.

Lemma allc_impl (p q : ascii → bool) (s : string) :
  (∀ c, p c = true → q c = true) → allc p s = true → allc q s = true.
Proof.
  intros Hpq. induction s as [|c s IH]; [done|]. simpl.
  intros [Hc Hs]%andb_prop. by rewrite (Hpq c Hc), IH.
Qed.

Lemma remove_char_allc (p : ascii → bool) (c : ascii) (s : string) :
  allc p s = true → allc p (remove_char c s) = true.
Proof.
  induction s as [|a s IH]; [done|]. simpl.
  intros [Ha Hs]%andb_prop. destruct (Ascii.eqb a c); [by apply IH|].
  simpl. by rewrite Ha, IH.
Qed.

Lemma remove_char_gone (c : ascii) (s : string) :
  allc (λ a, negb (Ascii.eqb a c)) (remove_char c s) = true.
Proof.
  induction s as [|a s IH]; [done|]. simpl.
  destruct (Ascii.eqb a c) eqn:Ha; [done|]. simpl. by rewrite Ha.
Qed.

Lemma remove_char_fixed (c : ascii) (s : string) :
  allc (λ a, negb (Ascii.eqb a c)) s = true → remove_char c s = s.
Proof.
  induction s as [|a s IH]; [done|]. simpl.
  intros [Ha Hs]%andb_prop. destruct (Ascii.eqb a c); [done|]. by rewrite IH.
Qed.

Lemma remove_char_nonempty (c : ascii) (s : string) :
  is_space c = true → s ≠ EmptyString → last_ok s = true →
  remove_char c s ≠ EmptyString.
Proof.
  intros Hc. induction s as [|a s IH]; [done|]. intros _ Hl. simpl.
  destruct (Ascii.eqb_spec a c) as [->|Hne]; [|done].
  destruct s as [|a' s']; [simpl in Hl; by rewrite Hc in Hl|].
  by apply IH.
Qed.

Lemma remove_char_last_ok (c : ascii) (s : string) :
  is_space c = true → last_ok s = true → last_ok (remove_char c s) = true.
Proof.
  intros Hc. induction s as [|a s IH]; [done|]. intros Hl.
  cbn [remove_char]. destruct (Ascii.eqb_spec a c) as [->|Hne].
  - destruct s as [|a' s']; [done|]. by apply IH.
  - destruct s as [|a' s']; [done|].
    assert (last_ok (String a' s') = true) as Hl' by done.
    pose proof (remove_char_nonempty c (String a' s') Hc ltac:(done) Hl')
      as Hne'.
    specialize (IH Hl').
    destruct (remove_char c (String a' s')) as [|x y]; [done|]. exact IH.
Qed.

Lemma remove_char_first (c a : ascii) (s : string) :
  Ascii.eqb a c = false →
  remove_char c (String a s) = String a (remove_char c s).
Proof. intros H. simpl. by rewrite H. Qed.

(** The joined chunks of a record in progress. *)
Lemma join_chunks (chunks : list string) :
  Forall chunk_ok chunks →
  no_line_end (join chunks) = true ∧ last_ok (join chunks) = true ∧
  match join chunks with
  | EmptyString => True
  | String a _ => is_space a = false ∧ Ascii.eqb a ">" = false
  end.
Proof.
  induction 1 as [|c cs (Hne & Hs & Hn & Hgt) _ (IH1 & IH2 & IH3)]; [done|].
  apply strip_fixed in Hs as [Hl Hr].
  change (join (c :: cs)) with (c +:+ join cs).
  split; [|split].
  - rewrite no_line_end_allc, allc_app, <- !no_line_end_allc. by rewrite Hn, IH1.
  - destruct (join cs) as [|a r] eqn:Hj.
    + rewrite str_app_nil_r. by apply rstrip_last_ok.
    + by rewrite last_ok_app.
  - destruct c as [|a c']; [done|].
    change (String a c' +:+ join cs) with (String a (c' +:+ join cs)).
    split; [by apply lstrip_first in Hl|done].
Qed.

Lemma is_space_not_plain (a : ascii) :
  is_space a = false → Ascii.eqb a " " = false ∧ Ascii.eqb a "009" = false.
Proof.
  intros H.
  destruct (Ascii.eqb_spec a " ") as [->|_]; [done|].
  destruct (Ascii.eqb_spec a "009") as [->|_]; [done|]. done.
Qed.

Lemma plain_parts (s : string) :
  allc plain s = true →
  no_line_end s = true ∧ remove_char " " s = s ∧ remove_char "009" s = s.
Proof.
  intros H. split; [|split].
  - rewrite no_line_end_allc. apply (allc_impl plain); [|done].
    unfold plain. intros c Hc.
    apply andb_prop in Hc as [Hc _]. by apply andb_prop in Hc as [Hc _].
  - apply remove_char_fixed, (allc_impl plain); [|done].
    unfold plain. intros c Hc.
    apply andb_prop in Hc as [Hc _]. by apply andb_prop in Hc as [_ Hc].
  - apply remove_char_fixed, (allc_impl plain); [|done].
    unfold plain. intros c Hc. by apply andb_prop in Hc as [_ Hc].
Qed.

(** The sequence text [close_record] puts in upper case. *)
Lemma squeezed_chunks (chunks : list string) :
  Forall chunk_ok chunks →
  let f := remove_char "009" (remove_char " " (join chunks)) in
  allc plain f = true ∧ last_ok f = true ∧
  match f with
  | EmptyString => True
  | String a _ => is_space a = false ∧ Ascii.eqb a ">" = false
  end.
Proof.
  intros Hc. destruct (join_chunks chunks Hc) as (Hn & Hl & Hfirst).
  simpl. split; [|split].
  - assert (∀ s p q, allc p s = true → allc q s = true →
                     allc (λ c, p c && q c) s = true) as Hand.
    { intros s p q. induction s as [|c s IH]; [done|]. simpl.
      intros [-> Hp]%andb_prop [-> Hq]%andb_prop. by rewrite IH. }
    apply (allc_impl
             (λ c, (negb (Ascii.eqb c "010") && negb (Ascii.eqb c "013"))
                   && negb (Ascii.eqb c " ") && negb (Ascii.eqb c "009"))).
    { intros c Hc'. exact Hc'. }
    apply (Hand _ (λ c, (negb (Ascii.eqb c "010") && negb (Ascii.eqb c "013"))
                        && negb (Ascii.eqb c " "))
              (λ c, negb (Ascii.eqb c "009"))); [|apply remove_char_gone].
    apply remove_char_allc.
    apply (Hand _ (λ c, negb (Ascii.eqb c "010") && negb (Ascii.eqb c "013"))
              (λ c, negb (Ascii.eqb c " "))); [|apply remove_char_gone].
    apply remove_char_allc. by rewrite <- no_line_end_allc.
  - by do 2 (apply remove_char_last_ok; [done|]).
  - destruct (join chunks) as [|a r]; [done|].
    destruct Hfirst as [Hsp Hgt].
    destruct (is_space_not_plain a Hsp) as [H1 H2].
    rewrite remove_char_first by done. rewrite remove_char_first by done.
    done.
Qed.

Lemma lstrip_lstrip (s : string) : lstrip (lstrip s) = lstrip s.
Proof.
  induction s as [|c s IH]; [done|]. simpl.
  destruct (is_space c) eqn:Hc; [done|]. simpl. by rewrite Hc.
Qed.

Lemma last_ok_rstrip (s : string) : last_ok (rstrip s) = true.
Proof.
  induction s as [|c s IH]; [done|]. simpl.
  destruct (rstrip s) as [|a r].
  - by destruct (is_space c) eqn:Hc; simpl; rewrite ?Hc.
  - done.
Qed.

Lemma lstrip_rstrip (s : string) : lstrip s = s → lstrip (rstrip s) = rstrip s.
Proof.
  intros H. apply lstrip_first in H. apply lstrip_first.
  destruct s as [|a s]; [done|]. simpl.
  destruct (rstrip s); [by rewrite H|done].
Qed.

Lemma strip_strip (s : string) : strip (strip s) = strip s.
Proof.
  unfold strip at 1 3. apply strip_from_ends.
  - apply lstrip_rstrip, lstrip_lstrip.
  - apply last_ok_rstrip.
Qed.

Lemma no_line_end_lstrip (s : string) :
  no_line_end s = true → no_line_end (lstrip s) = true.
Proof.
  induction s as [|c s IH]; [done|]. intros H. simpl.
  destruct (is_space c); [|done]. apply IH. simpl in H.
  by apply andb_prop in H as [_ H].
Qed.

Lemma no_line_end_rstrip_cons (c : ascii) (s : string) :
  no_line_end (rstrip s) = true →
  negb (Ascii.eqb c "010") && negb (Ascii.eqb c "013") = true →
  no_line_end (rstrip (String c s)) = true.
Proof.
  intros Hs Hc. simpl. destruct (rstrip s) as [|a r].
  - destruct (is_space c); [done|]. simpl. by rewrite Hc.
  - simpl in *. by rewrite Hc, Hs.
Qed.

Lemma no_line_end_rstrip (s : string) :
  no_line_end s = true → no_line_end (rstrip s) = true.
Proof.
  induction s as [|c s IH]; [done|]. intros H. simpl in H.
  apply andb_prop in H as [Hc Hs]. by apply no_line_end_rstrip_cons; [apply IH|].
Qed.

Lemma no_line_end_strip (s : string) :
  no_line_end s = true → no_line_end (strip s) = true.
Proof. intros H. by apply no_line_end_rstrip, no_line_end_lstrip. Qed.

Lemma no_line_end_tail1 (s : string) :
  no_line_end s = true → no_line_end (tail1 s) = true.
Proof.
  destruct s as [|c s]; [done|]. simpl. by intros [_ H]%andb_prop.
Qed.

(** A record closed from a header line without line end and from
    collected chunks is clean. *)
Lemma close_record_is_clean (h : string) (chunks : list string)
    (r : FastaRecord) :
  no_line_end h = true → Forall chunk_ok chunks →
  close_record h chunks = Some r → clean r.
Proof.
  intros Hh Hc. unfold close_record.
  destruct (squeezed_chunks chunks Hc) as (Hp & Hl & Hfirst).
  destruct (upper _) as [u|] eqn:Hu; [|done]. intros [= <-].
  unfold clean. cbn [header seq].
  pose proof (upper_plain _ _ Hp Hu) as Hup.
  destruct (plain_parts u Hup) as (Hn & Hsp & Htab).
  assert (match u with
          | EmptyString => True
          | String a _ => is_space a = false ∧ Ascii.eqb a ">" = false
          end) as Hufirst.
  { destruct (remove_char "009" (remove_char " " (join chunks)))
      as [|a f]; [by injection Hu as <-|].
    simpl in Hu. destruct Hfirst as [Hsp' Hgt'].
    destruct (upper_char a) as [w|] eqn:Hw; [|done].
    destruct (upper f) as [x|]; [|done]. injection Hu as <-.
    pose proof (upper_char_solid a w Hsp' Hw) as Hws.
    pose proof (upper_char_gt a w Hgt' Hw) as Hwg.
    destruct w as [|b w']; [by destruct (upper_char_nonempty a)|].
    change (String b w' +:+ x) with (String b (w' +:+ x)).
    simpl in *. apply andb_prop in Hws as [Hb _].
    split; [by destruct (is_space b)|done]. }
  split; [|split; [|split; [|split; [|split; [|split; [|split]]]]]]; try done.
  - apply strip_strip.
  - by apply no_line_end_strip, no_line_end_tail1.
  - apply strip_from_ends; [|by apply (upper_last_ok _ _ Hl Hu)].
    apply lstrip_first. by destruct u; [|destruct Hufirst].
  - by destruct u; [|destruct Hufirst].
  - by apply (upper_fixed _ _ Hu).
Qed.

Lemma strip_snoc_nl (s : string) :
  strip (s +:+ String "010" EmptyString) = strip s.
Proof.
  induction s as [|a s IH]; [done|].
  change (String a s +:+ String "010" EmptyString)
    with (String a (s +:+ String "010" EmptyString)).
  unfold strip in *. cbn [lstrip]. destruct (is_space a) eqn:Ha; [exact IH|].
  change (String a (s +:+ String "010" EmptyString))
    with (String a s +:+ String "010" EmptyString).
  by rewrite rstrip_snoc_space.
Qed.

Lemma line_shape_strip (l : string) :
  line_shape l → no_line_end (strip l) = true.
Proof.
  intros (c & Hc & [->| ->]); [|rewrite strip_snoc_nl];
    by apply no_line_end_strip.
Qed.

Lemma line_shape_cons (c : ascii) (l : string) :
  Ascii.eqb c "010" = false → Ascii.eqb c "013" = false →
  line_shape l → line_shape (String c l).
Proof.
  intros Hn Hr (c0 & Hc0 & Hl). exists (String c c0). split.
  - simpl. by rewrite Hn, Hr.
  - destruct Hl as [->| ->]; [by left|by right].
Qed.

(** Every line a file yields has the shape of a line. *)
Lemma file_lines_shape (text : string) : Forall line_shape (file_lines text).
Proof.
  assert (∀ n text, (String.length text ≤ n)%nat →
                    Forall line_shape (file_lines text)) as H;
    [|by apply (H (String.length text))].
  clear text. induction n as [|n IH]; intros text Hlen.
  - destruct text; [constructor|simpl in Hlen; lia].
  - destruct text as [|c text']; [constructor|]. simpl in Hlen.
    assert (line_shape (String "010" EmptyString)) as Hnl.
    { exists EmptyString. split; [done|by right]. }
    cbn [file_lines].
    destruct (Ascii.eqb c "010") eqn:Hn.
    { constructor; [done|]. apply IH. lia. }
    destruct (Ascii.eqb c "013") eqn:Hr.
    { constructor; [done|]. destruct text' as [|c' text'']; [constructor|].
      simpl in Hlen. destruct (Ascii.eqb c' "010"); apply IH; simpl; lia. }
    assert (Forall line_shape (file_lines text')) as Hrest by (apply IH; lia).
    destruct (file_lines text') as [|line lines].
    + constructor; [|constructor]. exists (String c EmptyString). split.
      * simpl. by rewrite Hn, Hr.
      * by left.
    + apply Forall_cons in Hrest as [Hline Hlines].
      constructor; [|done]. by apply line_shape_cons.
Qed.

(** The loop keeps its records clean. *)
Lemma read_fasta_loop_clean (lines : list string) :
  Forall (λ l, no_line_end (strip l) = true) lines →
  ∀ records hdr chunks recs,
    Forall clean records →
    (∀ h, hdr = Some h → no_line_end h = true) →
    Forall chunk_ok chunks →
    read_fasta_loop lines records hdr chunks = Some recs →
    Forall clean recs.
Proof.
  induction 1 as [|line lines Hline _ IH];
    intros records hdr chunks recs Hrecs Hhdr Hchunks; cbn [read_fasta_loop].
  - destruct hdr as [h|]; [|by intros [= <-]].
    destruct (close_record h chunks) as [r|] eqn:Hr; [|done].
    intros [= <-]. apply Forall_app. split; [done|].
    constructor; [|constructor].
    by apply (close_record_is_clean h chunks); [apply Hhdr|..].
  - destruct (strip line) as [|a l'] eqn:Hs; [by apply IH|].
    destruct (startswith_gt (String a l')) eqn:Hgt.
    + destruct hdr as [h|].
      * destruct (close_record h chunks) as [r|] eqn:Hr; [|done].
        apply IH; [|by intros ? [= <-]|constructor].
        apply Forall_app. split; [done|]. constructor; [|constructor].
        by apply (close_record_is_clean h chunks); [apply Hhdr|..].
      * apply IH; [done|by intros ? [= <-]|constructor].
    + apply IH; [done..|]. apply Forall_app. split; [done|].
      constructor; [|constructor]. split; [done|].
      split; [by rewrite <- Hs, strip_strip|]. by split.
Qed.

(** X17.  Every record [read_fasta] returns is clean: its header is
    stripped, neither header nor sequence holds a line end, and the
    sequence holds no space or tab, is in upper case, is stripped and does
    not start with [>].  With the round trip: what the reader returned is
    read again unchanged after [write_fasta_pairs]. *)
Theorem read_fasta_clean (text : string) (recs : list FastaRecord) :
  read_fasta text = Some recs → Forall clean recs.
Proof.
  unfold read_fasta. apply read_fasta_loop_clean; try done.
  eapply Forall_impl; [apply file_lines_shape|]. apply line_shape_strip.
Qed.

Lemma read_fasta_clean_witness :
  let text := "  >  sp|P1 desc " +:+ String "013" (String "010" "akr lm")
              +:+ String "010" (" K" +:+ String "009" "r")
              +:+ String "013" (">" +:+ String "010" ">h3") in
  read_fasta text
  = Some [rec_of "sp|P1 desc" "AKRLMKR"; rec_of EmptyString EmptyString;
          rec_of "h3" EmptyString] ∧
  Forall clean [rec_of "sp|P1 desc" "AKRLMKR"; rec_of EmptyString EmptyString;
                rec_of "h3" EmptyString].
Proof.
  intros text. split; [vm_compute; reflexivity|].
  apply (read_fasta_clean text). vm_compute. reflexivity.
Defined.
